(** * PersistentTrie: a persistent, path-copying trie keyed by strings

    Shallow embedding of [src/PersistentTrie.cpp].

    The C++ program builds its versions out of reference-counted nodes
    ([std::shared_ptr<const TrieNode>]) that are shared between versions.
    The embedding keeps that sharing visible: nodes live in a heap, a
    pointer is an optional address ([None] is [nullptr]), and the three
    operations run in a small state-and-error monad over the heap.  A
    [Crash] outcome stands for dereferencing a null (or dangling) pointer,
    which is undefined behaviour in the source.

    Reference counting is not modelled: the heap only grows.  A cell that
    the source would reclaim is one that no live handle reaches, so no
    operation can observe whether it is still there. *)

From Stdlib Require Import Ascii String ZArith QArith_base.
From stdpp Require Import gmap strings list fin_maps.

(** ** Outcomes of running a piece of the program *)

Inductive outcome (A : Type) : Type :=
| Done (a : A)
| Crash.
Arguments Done {A} _.
Arguments Crash {A}.

(** Addresses of heap cells and (nullable) shared pointers. *)
Abbreviation addr := nat.
Abbreviation ptr := (option nat).

Section PersistentTrie.

(** The template parameter [T] of [TrieValueNode<T>], [search<T>] and
    [insert<T>] ranges over a universe of run-time type identities [tag]
    with decidable equality (what [dynamic_cast] compares); [denote T]
    is the set of values of type [T]. *)
Context {tag : Type} `{!EqDecision tag} (denote : tag → Type).

(** A value together with its dynamic type: the payload of a
    [TrieValueNode<T>]. *)
Record boxed : Type := Box { box_type : tag; box_value : denote box_type }.

(** [class TrieNode] and its subclass [TrieValueNode<T>] as one record:
    [value = None] is an object whose dynamic type is [TrieNode],
    [value = Some (Box T x)] one whose dynamic type is
    [TrieValueNode<T>].  [children] is the [unordered_map] from [char]
    to [shared_ptr<const TrieNode>]; its entries may be null. *)
Record TrieNode : Type := MkTrieNode {
  isEndOfWord : bool;
  children : gmap ascii ptr;
  value : option boxed
}.

(** [class Trie]: a handle owning a possibly null root. *)
Record Trie : Type := MkTrie { root : ptr }.

Abbreviation heap := (list TrieNode).

(** *** Constructors of the two classes *)

(** [TrieNode() = default] *)
Definition TrieNode_default : TrieNode :=
  {| isEndOfWord := false; children := ∅; value := None |}.

(** [explicit TrieNode(Children children)] *)
Definition TrieNode_of (c : gmap ascii ptr) : TrieNode :=
  {| isEndOfWord := false; children := c; value := None |}.

(** [explicit TrieValueNode(SPT<T> value)] *)
Definition TrieValueNode_of (b : boxed) : TrieNode :=
  {| isEndOfWord := true; children := ∅; value := Some b |}.

(** [TrieValueNode(Children children, SPT<T> value)] *)
Definition TrieValueNode_with (c : gmap ascii ptr) (b : boxed) : TrieNode :=
  {| isEndOfWord := true; children := c; value := Some b |}.

(** The nodes the constructors above can build. *)
Inductive constructed : TrieNode → Prop :=
| constructed_default : constructed TrieNode_default
| constructed_of c : constructed (TrieNode_of c)
| constructed_value b : constructed (TrieValueNode_of b)
| constructed_value_with c b : constructed (TrieValueNode_with c b).

(** [virtual copy() const], dispatched on the dynamic type:
    [TrieNode::copy] is [make_unique<TrieNode>(children)],
    [TrieValueNode::copy] is [make_unique<TrieValueNode>(children, value)]. *)
Definition copy_node (n : TrieNode) : TrieNode :=
  match value n with
  | Some b => TrieValueNode_with (children n) b
  | None => TrieNode_of (children n)
  end.

(** [dynamic_cast<const TrieValueNode<T>*>(p)] followed by reading the
    value: succeeds exactly when the dynamic type is [TrieValueNode<T>]. *)
Definition unbox (T : tag) (b : boxed) : option (denote T) :=
  match decide (box_type b = T) with
  | left e => Some (eq_rect (box_type b) denote (box_value b) T e)
  | right _ => None
  end.

Definition dynamic_cast (T : tag) (n : TrieNode) : option (denote T) :=
  match value n with
  | Some b => unbox T b
  | None => None
  end.

(** [next->children.empty() && !next->isEndOfWord] *)
Definition is_dead (n : TrieNode) : bool :=
  bool_decide (children n = ∅) && negb (isEndOfWord n).

(** ** The heap monad *)

Definition M (A : Type) : Type := heap → outcome (A * heap).

Definition pure {A} (a : A) : M A := λ h, Done (a, h).

Definition bind {A B} (m : M A) (k : A → M B) : M B :=
  λ h, match m h with
       | Done (a, h') => k a h'
       | Crash => Crash
       end.

Notation "x <~ m ;; k" := (bind m (λ x, k))
  (at level 100, m at next level, right associativity).
Notation "m ;;; k" := (bind m (λ _, k))
  (at level 100, right associativity).

(** [*p]: reading through a pointer; null and dangling pointers crash. *)
Definition deref (p : ptr) : M TrieNode :=
  λ h, match p with
       | Some a => match h !! a with
                   | Some n => Done (n, h)
                   | None => Crash
                   end
       | None => Crash
       end.

(** [make_shared] / [make_unique]: a new cell at a fresh address. *)
Definition alloc (n : TrieNode) : M addr :=
  λ h, Done (length h, h ++ [n]).

(** In-place update of the object at address [a]. *)
Definition update (a : addr) (f : TrieNode → TrieNode) : M unit :=
  λ h, match h !! a with
       | Some n => Done (tt, <[a := f n]> h)
       | None => Crash
       end.

(** [p->copy()] *)
Definition copy (p : ptr) : M addr :=
  n <~ deref p ;; alloc (copy_node n).

(** [n.children[k] = next] and [n.children.erase(k)] on a node. *)
Definition put_child (k : ascii) (next : ptr) (n : TrieNode) : TrieNode :=
  {| isEndOfWord := isEndOfWord n;
     children := <[k := next]> (children n);
     value := value n |}.

Definition drop_child (k : ascii) (n : TrieNode) : TrieNode :=
  {| isEndOfWord := isEndOfWord n;
     children := delete k (children n);
     value := value n |}.

(** [ret->children[k] = next] *)
Definition set_child (a : addr) (k : ascii) (next : ptr) : M unit :=
  update a (put_child k next).

(** [ret->children.erase(k)] *)
Definition erase_child (a : addr) (k : ascii) : M unit :=
  update a (drop_child k).

(** The test [cur && cur->children.find(k) != cur->children.end()]
    shared by the three operations, returning [cur->children.at(k)] when
    it succeeds. *)
Definition find_child (cur : ptr) (k : ascii) : M (option ptr) :=
  match cur with
  | Some _ => n <~ deref cur ;; pure (children n !! k)
  | None => pure None
  end.

(** ** [Trie::search] *)

(** The [for] loop of [search].  Its early [return nullptr] is the
    result [Done None]: a null [cur] after the loop makes the
    [dynamic_cast] that follows yield null as well, so both exits
    return [nullptr]. *)
Fixpoint search_loop (h : heap) (cur : ptr) (key : string) : outcome ptr :=
  match key with
  | EmptyString => Done cur
  | String k key' =>
      match find_child cur k h with
      | Done (Some c, _) => search_loop h c key'
      | Done (None, _) => Done None
      | Crash => Crash
      end
  end.

(** The tail of [search]: the [dynamic_cast] and the [isEndOfWord] test. *)
Definition search_end (T : tag) (h : heap) (cur : ptr)
  : outcome (option (denote T)) :=
  match cur with
  | None => Done None
  | Some a =>
      match h !! a with
      | None => Crash
      | Some n =>
          match dynamic_cast T n with
          | Some x => if isEndOfWord n then Done (Some x) else Done None
          | None => Done None
          end
      end
  end.

Definition search_at (T : tag) (h : heap) (cur : ptr) (key : string)
  : outcome (option (denote T)) :=
  match search_loop h cur key with
  | Done p => search_end T h p
  | Crash => Crash
  end.

(** [search<T>(key)] is a [const] method: it reads the heap only. *)
Definition search (T : tag) (t : Trie) (key : string) (h : heap)
  : outcome (option (denote T)) :=
  search_at T h (root t) key.

(** ** [Trie::insert] *)

Fixpoint insert_dfs (T : tag) (x : denote T) (key : string) (cur : ptr)
  : M ptr :=
  match key with
  | EmptyString =>
      match cur with
      | Some _ =>
          n <~ deref cur ;;
          a <~ alloc (TrieValueNode_with (children n) (Box T x)) ;;
          pure (Some a)
      | None =>
          a <~ alloc (TrieValueNode_of (Box T x)) ;;
          pure (Some a)
      end
  | String k key' =>
      let t := cur in
      oc <~ find_child cur k ;;
      let cur := match oc with Some c => c | None => None end in
      next <~ insert_dfs T x key' cur ;;
      r <~ match t with
           | Some _ => copy t
           | None => alloc TrieNode_default
           end ;;
      set_child r k next ;;;
      pure (Some r)
  end.

Definition insert (T : tag) (t : Trie) (key : string) (x : denote T)
  : M Trie :=
  newRoot <~ insert_dfs T x key (root t) ;;
  pure (MkTrie newRoot).

(** ** [Trie::remove] *)

Fixpoint remove_dfs (key : string) (cur : ptr) : M ptr :=
  match key with
  | EmptyString =>
      n <~ deref cur ;;
      a <~ alloc (TrieNode_of (children n)) ;;
      pure (Some a)
  | String k key' =>
      r <~ copy cur ;;
      oc <~ find_child cur k ;;
      match oc with
      | None => pure None
      | Some c =>
          next <~ remove_dfs key' c ;;
          match next with
          | None => pure None
          | Some _ =>
              nn <~ deref next ;;
              (if is_dead nn then erase_child r k else set_child r k next) ;;;
              pure (Some r)
          end
      end
  end.

Definition remove (t : Trie) (key : string) : M Trie :=
  match root t with
  | None => pure (MkTrie None)
  | Some _ =>
      r <~ remove_dfs key (root t) ;;
      match r with
      | Some _ =>
          n <~ deref r ;;
          if is_dead n then pure (MkTrie None) else pure (MkTrie r)
      | None => pure (MkTrie (root t))
      end
  end.


(** ** Well-formed nodes and heaps *)

(** The class invariant the constructors establish: a node claims to end
    a word exactly when it is a [TrieValueNode]. *)
Definition class_inv (n : TrieNode) : Prop :=
  isEndOfWord n = match value n with Some _ => true | None => false end.

(** A later heap keeps every cell of an earlier one unchanged. *)
Definition heap_le (h h' : heap) : Prop :=
  ∀ a n, h !! a = Some n → h' !! a = Some n.

(** [agree_outside lo hi h h'']: [h''] has every cell of [h] except
    possibly those at the addresses [lo ≤ a < hi]. *)
Definition agree_outside (lo hi : nat) (h h'' : heap) : Prop :=
  ∀ a n, a < lo ∨ hi ≤ a → h !! a = Some n → h'' !! a = Some n.

(** [good h a]: the cell at [a] is the root of a well-formed subtrie of
    [h]: every node below exists, satisfies the class invariant, is not
    dead, and has no null entry in its [children]. *)
Inductive good (h : heap) : addr → Prop :=
| good_node a n :
    h !! a = Some n →
    class_inv n →
    is_dead n = false →
    (∀ k, children n !! k ≠ Some None) →
    (∀ k b, children n !! k = Some (Some b) → good h b) →
    good h a.

(** The same without the requirement that the top node is alive: what
    [remove]'s recursion returns before its caller prunes. *)
Definition shell (h : heap) (a : addr) : Prop :=
  ∃ n, h !! a = Some n ∧ class_inv n ∧
       (∀ k, children n !! k ≠ Some None) ∧
       (∀ k b, children n !! k = Some (Some b) → good h b).

Definition wf_ptr (h : heap) (p : ptr) : Prop :=
  ∀ a, p = Some a → good h a.

Definition wf_trie (h : heap) (t : Trie) : Prop := wf_ptr h (root t).

(** [reaches h p s q]: walking the characters of [s] from [p] along
    [children] edges ends at the non-null pointer [q]. *)
Definition reaches (h : heap) (p : ptr) (s : string) (q : addr) : Prop :=
  search_loop h p s = Done (Some q).

(** ** Histories of versions *)

(** [Trie() = default]: the empty version, with a null root. *)
Definition Trie_default : Trie := MkTrie None.

(** The two operations that create versions. *)
Inductive op : Type :=
| OpInsert (T : tag) (key : string) (x : denote T)
| OpRemove (key : string).

Definition apply_op (o : op) (t : Trie) : M Trie :=
  match o with
  | OpInsert T key x => insert T t key x
  | OpRemove key => remove t key
  end.

(** [op_inserts_at key o]: [o] is an insertion at [key]. *)
Definition op_inserts_at (key : string) (o : op) : bool :=
  match o with
  | OpInsert _ k _ => bool_decide (k = key)
  | OpRemove _ => false
  end.

(** [built h t ops]: in the heap [h] the handle [t] is a live version
    that was obtained from the empty version by the operations [ops], in
    that order.  Versions persist: [built_keep] says that a version stays
    live while operations run on any other live version. *)
Inductive built : heap → Trie → list op → Prop :=
| built_empty : built [] Trie_default []
| built_step h t ops o t' h' :
    built h t ops →
    apply_op o t h = Done (t', h') →
    built h' t' (ops ++ [o])
| built_keep h t ops t0 ops0 o t' h' :
    built h t ops →
    built h t0 ops0 →
    apply_op o t0 h = Done (t', h') →
    built h' t ops.

(** A driver in the style of [main]: [trie = trie.op(...)] repeatedly,
    starting from the empty version. *)
Definition run_ops (ops : list op) : outcome (Trie * heap) :=
  fold_left (λ st o, match st with
                     | Done (t, h) => apply_op o t h
                     | Crash => Crash
                     end)
            ops (Done (Trie_default, [])).

(** A query against the state a driver ended in. *)
Definition query (T : tag) (key : string) (st : outcome (Trie * heap))
  : outcome (option (denote T)) :=
  match st with
  | Done (t, h) => search T t key h
  | Crash => Crash
  end.

End PersistentTrie.

Arguments Box {tag denote} _ _.
Arguments box_type {tag denote} _.
Arguments box_value {tag denote} _.
Arguments MkTrieNode {tag denote} _ _ _.
Arguments isEndOfWord {tag denote} _.
Arguments children {tag denote} _.
Arguments value {tag denote} _.
Arguments TrieNode_default {tag denote}.
Arguments TrieNode_of {tag denote} _.
Arguments TrieValueNode_of {tag denote} _.
Arguments TrieValueNode_with {tag denote} _ _.
Arguments constructed {tag denote} _.
Arguments copy_node {tag denote} _.
Arguments unbox {tag _ denote} _ _.
Arguments dynamic_cast {tag _ denote} _ _.
Arguments is_dead {tag denote} _.
Arguments pure {tag denote A} _ _.
Arguments bind {tag denote A B} _ _ _.
Arguments deref {tag denote} _ _.
Arguments alloc {tag denote} _ _.
Arguments update {tag denote} _ _ _.
Arguments copy {tag denote} _ _.
Arguments put_child {tag denote} _ _ _.
Arguments drop_child {tag denote} _ _.
Arguments set_child {tag denote} _ _ _ _.
Arguments erase_child {tag denote} _ _ _.
Arguments find_child {tag denote} _ _ _.
Arguments search_loop {tag denote} _ _ _.
Arguments search_end {tag _ denote} _ _ _.
Arguments search_at {tag _ denote} _ _ _ _.
Arguments search {tag _ denote} _ _ _ _.
Arguments insert_dfs {tag denote} _ _ _ _ _.
Arguments insert {tag denote} _ _ _ _ _.
Arguments remove_dfs {tag denote} _ _ _.
Arguments remove {tag denote} _ _ _.
Arguments class_inv {tag denote} _.
Arguments heap_le {tag denote} _ _.
Arguments agree_outside {tag denote} _ _ _ _.
Arguments good {tag denote} _ _.
Arguments shell {tag denote} _ _.
Arguments wf_ptr {tag denote} _ _.
Arguments wf_trie {tag denote} _ _.
Arguments reaches {tag denote} _ _ _ _.
Arguments OpInsert {tag denote} _ _ _.
Arguments OpRemove {tag denote} _.
Arguments apply_op {tag denote} _ _ _.
Arguments op_inserts_at {tag denote} _ _.
Arguments built {tag denote} _ _ _.
Arguments run_ops {tag denote} _.
Arguments query {tag _ denote} _ _ _.
Arguments good_node {tag denote} h a n _ _ _ _ _.
Arguments built_empty {tag denote}.
Arguments constructed_default {tag denote}.
Arguments constructed_of {tag denote} c.
Arguments constructed_value {tag denote} b.
Arguments constructed_value_with {tag denote} c b.
Arguments built_step {tag denote} h t ops o t' h' _ _.
Arguments built_keep {tag denote} h t ops t0 ops0 o t' h' _ _ _.

(** ** The finite map a history denotes

    A reference model that is not part of the source: the map from keys
    to boxed values that a sequence of operations describes when [insert]
    is read as a map update and [remove] as a map deletion.  It is what
    the trie is compared with. *)

Section AbstractMap.

Context {tag : Type} (denote : tag → Type).

Definition abstract_step (m : gmap string (boxed denote)) (o : op denote)
  : gmap string (boxed denote) :=
  match o with
  | OpInsert T key x => <[key := Box T x]> m
  | OpRemove key => delete key m
  end.

Definition abstract_map (ops : list (op denote)) : gmap string (boxed denote) :=
  fold_left abstract_step ops ∅.

(** The key an operation works on, and the number of nodes on the path
    of that key (one per prefix). *)
Definition op_key (o : op denote) : string :=
  match o with
  | OpInsert _ key _ => key
  | OpRemove key => key
  end.

Definition path_nodes (o : op denote) : nat := String.length (op_key o) + 1.

End AbstractMap.

Arguments abstract_step {tag denote} _ _.
Arguments abstract_map {tag denote} _.
Arguments op_key {tag denote} _.
Arguments path_nodes {tag denote} _.

(** ** A concrete universe of value types

    The three types [main] stores: [int], [std::string] and [double].
    No arithmetic is done on a stored [double]; its payload is kept as a
    rational. *)

Inductive vtype : Type := TInt | TString | TDouble.

#[global] Instance vtype_eq_dec : EqDecision vtype.
Proof. solve_decision. Defined.

Definition vdenote (T : vtype) : Type :=
  match T with
  | TInt => Z
  | TString => string
  | TDouble => Q
  end.

(** The version [Trie().insert<int>("ab", 12)] and the heap it lives in:
    the value node for ["ab"], then the nodes for ["a"] and for the root
    that the unwinding recursion builds. *)
Definition ops_ab : list (op vdenote) := [OpInsert TInt "ab" 12%Z].

Definition heap_ab : list (TrieNode vdenote) :=
  [ TrieValueNode_of (Box TInt 12%Z);
    put_child "b" (Some 0) TrieNode_default;
    put_child "a" (Some 1) TrieNode_default ].

Definition trie_ab : Trie := MkTrie (Some 2).

(** The operations of [main], up to its last [insert]. *)
Definition main_inserts : list (op vdenote) :=
  [ OpInsert TInt "abc" 123%Z;
    OpInsert TInt "ab" 12%Z;
    OpInsert TInt "abcedfg" 888%Z;
    OpInsert TString "ijk" "xyz";
    OpInsert TDouble "xyz" (888 # 1000)%Q ].

Definition main_removes : list (op vdenote) :=
  [ OpRemove "ijk"; OpRemove "ijkf"; OpRemove "ab" ].

Definition main_ops : list (op vdenote) :=
  main_inserts ++ main_removes ++ [OpInsert TString "" "naughty"].

(** Proves that the example version is a version of a history: one
    [insert] from the empty version, by running it. *)
Ltac built_ab :=
  apply (built_step [] Trie_default [] (OpInsert TInt "ab" 12%Z) trie_ab heap_ab);
  [apply built_empty | vm_compute; reflexivity].

(** Proves that the empty version is still live in the heap of the
    example version: the [insert] ran on it and left it in place. *)
Ltac built_empty_ab :=
  apply (built_keep [] Trie_default [] Trie_default []
           (OpInsert TInt "ab" 12%Z) trie_ab heap_ab);
  [apply built_empty | apply built_empty | vm_compute; reflexivity].

(** * Properties *)

Section Properties.

Context {tag : Type} `{!EqDecision tag} {denote : tag → Type}.

Implicit Types (h : list (TrieNode denote)) (n : TrieNode denote).
Implicit Types (a b : addr) (p cur : ptr) (k : ascii) (s key : string).
Implicit Types (t v : Trie).

(** ** Running the primitive heap operations *)

Lemma bind_run {A B} (m : M denote A) (f : A → M denote B) h x h' :
  m h = Done (x, h') → bind m f h = f x h'.
Proof. unfold bind. by intros ->. Qed.

Lemma deref_run h a n : h !! a = Some n → deref (Some a) h = Done (n, h).
Proof. unfold deref. by intros ->. Qed.

Lemma find_child_run h a n k :
  h !! a = Some n → find_child (Some a) k h = Done (children n !! k, h).
Proof.
  intros Ha. unfold find_child. by rewrite (bind_run _ _ _ _ _ (deref_run _ _ _ Ha)).
Qed.

Lemma copy_run h a n :
  h !! a = Some n → copy (Some a) h = Done (length h, h ++ [copy_node n]).
Proof.
  intros Ha. unfold copy. by rewrite (bind_run _ _ _ _ _ (deref_run _ _ _ Ha)).
Qed.

Lemma update_run h a n f :
  h !! a = Some n → update a f h = Done (tt, <[a := f n]> h).
Proof. unfold update. by intros ->. Qed.

Lemma lookup_fresh h n : (h ++ [n]) !! length h = Some n.
Proof. by rewrite lookup_app_r, Nat.sub_diag. Qed.

(** ** Heap extension *)

Lemma heap_le_refl h : heap_le h h.
Proof. by intros a n. Qed.

Lemma heap_le_trans h1 h2 h3 : heap_le h1 h2 → heap_le h2 h3 → heap_le h1 h3.
Proof. intros H12 H23 a n Ha. eauto. Qed.

Lemma heap_le_alloc h n : heap_le h (h ++ [n]).
Proof. intros a m Ha. rewrite lookup_app_l; eauto using lookup_lt_Some. Qed.

Lemma heap_le_update_fresh h0 h a m :
  heap_le h0 h → length h0 ≤ a → heap_le h0 (<[a := m]> h).
Proof.
  intros Hle Hlen b n Hb. rewrite list_lookup_insert_ne; [by apply Hle|].
  apply lookup_lt_Some in Hb. lia.
Qed.

Lemma heap_le_length h h' : heap_le h h' → length h ≤ length h'.
Proof.
  intros Hle. destruct (decide (length h ≤ length h')) as [|Hn]; [done|].
  destruct (lookup_lt_is_Some_2 h (length h')) as [n Hn']; [lia|].
  apply Hle, lookup_lt_Some in Hn'. lia.
Qed.

Lemma agree_outside_refl lo hi h : agree_outside lo hi h h.
Proof. by intros a n. Qed.

Lemma good_mono h h' a : heap_le h h' → good h a → good h' a.
Proof.
  intros Hle Hg. induction Hg as [a n Ha Hc Hd Hnn Hch IH].
  apply (good_node h' a n); eauto.
Qed.

Lemma wf_ptr_mono h h' p : heap_le h h' → wf_ptr h p → wf_ptr h' p.
Proof. intros Hle Hwf a ->. eapply good_mono; eauto. Qed.

Lemma wf_ptr_None h : wf_ptr h None.
Proof. by intros a. Qed.

Lemma wf_ptr_Some h a : good h a → wf_ptr h (Some a).
Proof. by intros Hg b [= <-]. Qed.

Lemma good_shell h a : good h a → shell h a.
Proof. intros [b n Ha Hc Hd Hnn Hch]. by exists n. Qed.

Lemma shell_good h a n :
  shell h a → h !! a = Some n → is_dead n = false → good h a.
Proof.
  intros (m & Hm & Hc & Hnn & Hch) Ha Hd.
  assert (m = n) as -> by congruence. by apply (good_node h a n).
Qed.

(** A child of a well-formed node is a well-formed, non-null pointer. *)
Lemma good_child h a n k c :
  good h a → h !! a = Some n → children n !! k = Some c →
  ∃ b, c = Some b ∧ good h b.
Proof.
  intros [a' m Hm Hc Hd Hnn Hch] Ha Hk.
  assert (m = n) as -> by congruence.
  destruct c as [b|]; [eauto | by destruct (Hnn k)].
Qed.

Lemma good_lookup h a : good h a → ∃ n, h !! a = Some n ∧ class_inv n ∧ is_dead n = false.
Proof. intros [b n Ha Hc Hd _ _]. eauto. Qed.

(** ** Unfolding [search] *)

Lemma search_at_null T h s : search_at T h None s = Done None.
Proof. by destruct s. Qed.

Lemma search_at_nil T h p : search_at T h p "" = search_end T h p.
Proof. done. Qed.

Lemma search_at_cons T h a n k s :
  h !! a = Some n →
  search_at T h (Some a) (String k s) =
    match children n !! k with
    | Some c => search_at T h c s
    | None => Done None
    end.
Proof.
  intros Ha. unfold search_at. cbn [search_loop]. rewrite (find_child_run _ _ _ _ Ha).
  by destruct (children n !! k).
Qed.

Lemma search_loop_cons h a n k s :
  h !! a = Some n →
  search_loop h (Some a) (String k s) =
    match children n !! k with
    | Some c => search_loop h c s
    | None => Done None
    end.
Proof. intros Ha. cbn [search_loop]. by rewrite (find_child_run _ _ _ _ Ha). Qed.

Lemma search_loop_null h s : search_loop h None s = Done None.
Proof. by destruct s. Qed.

(** The [dynamic_cast] recovers a value boxed at the same type. *)
Lemma unbox_same T (x : denote T) : unbox T (Box T x) = Some x.
Proof.
  unfold unbox; simpl. destruct (decide (T = T)) as [e|]; [|done].
  by rewrite (proof_irrel e eq_refl).
Qed.

Lemma unbox_other T U (x : denote T) : T ≠ U → unbox U (Box T x) = None.
Proof. intros Hne. unfold unbox; simpl. by destruct (decide (T = U)). Qed.

(** A successful cast pins the dynamic type. *)
Lemma unbox_Some T (bx : boxed denote) (x : denote T) :
  unbox T bx = Some x → bx = Box T x.
Proof.
  unfold unbox. destruct bx as [U y]; simpl.
  destruct (decide (U = T)) as [e|]; [|done]. destruct e. simpl. by intros [= ->].
Qed.

(** What [search] reports at a node depends on its value and flag only. *)
Lemma search_end_value_node T h a c (bx : boxed denote) :
  h !! a = Some (TrieValueNode_with c bx) →
  search_end T h (Some a) = Done (unbox T bx).
Proof.
  intros Ha. unfold search_end. rewrite Ha. unfold dynamic_cast; simpl.
  by destruct (unbox T bx).
Qed.

Lemma search_end_plain T h a n :
  h !! a = Some n → value n = None → search_end T h (Some a) = Done None.
Proof.
  intros Ha Hv. unfold search_end. rewrite Ha. unfold dynamic_cast. by rewrite Hv.
Qed.

Lemma search_end_same T h h' a a' n n' :
  h !! a = Some n → h' !! a' = Some n' →
  value n' = value n → isEndOfWord n' = isEndOfWord n →
  search_end T h' (Some a') = search_end T h (Some a).
Proof.
  intros Ha Ha' Hv Hf. unfold search_end, dynamic_cast.
  by rewrite Ha, Ha', Hv, Hf.
Qed.

(** [copy] rebuilds the flag from the dynamic type; on a node that
    satisfies the class invariant that is the flag it had. *)
Lemma copy_node_flag n : class_inv n → isEndOfWord (copy_node n) = isEndOfWord n.
Proof. unfold class_inv, copy_node. intros ->. by destruct (value n). Qed.

(** In general the flag of a copy is the one its constructor sets: it is
    read off the dynamic type, not off the flag of the original. *)
Lemma copy_node_flag_rebuilt n :
  isEndOfWord (copy_node n) = match value n with Some _ => true | None => false end.
Proof. unfold copy_node. by destruct (value n). Qed.

Lemma copy_node_value n : value (copy_node n) = value n.
Proof. unfold copy_node. by destruct (value n). Qed.

Lemma copy_node_children n : children (copy_node n) = children n.
Proof. unfold copy_node. by destruct (value n). Qed.

Lemma copy_node_class_inv n : class_inv (copy_node n).
Proof. unfold class_inv, copy_node. by destruct (value n). Qed.

(** ** [search] on well-formed tries *)

(** Searching a well-formed trie only reads cells the trie owns, so it is
    unaffected by heap growth. *)
Lemma search_at_mono T h h' s : ∀ p,
  heap_le h h' → wf_ptr h p → search_at T h' p s = search_at T h p s.
Proof.
  induction s as [|k s IH]; intros [a|] Hle Hwf;
    try by rewrite !search_at_null.
  - destruct (good_lookup h a) as (n & Ha & _); [by apply Hwf|].
    rewrite !search_at_nil. unfold search_end. by rewrite Ha, (Hle _ _ Ha).
  - destruct (good_lookup h a) as (n & Ha & _); [by apply Hwf|].
    rewrite (search_at_cons _ _ _ _ _ _ Ha), (search_at_cons _ _ _ _ _ _ (Hle _ _ Ha)).
    destruct (children n !! k) as [c|] eqn:Hk; [|done].
    destruct (good_child h a n k c) as (b & -> & Hb); auto.
    apply IH; auto using wf_ptr_Some.
Qed.

Lemma search_loop_mono h h' s : ∀ p,
  heap_le h h' → wf_ptr h p → search_loop h' p s = search_loop h p s.
Proof.
  induction s as [|k s IH]; intros [a|] Hle Hwf; try done.
  destruct (good_lookup h a) as (n & Ha & _); [by apply Hwf|].
  rewrite (search_loop_cons _ _ _ _ _ Ha), (search_loop_cons _ _ _ _ _ (Hle _ _ Ha)).
  destruct (children n !! k) as [c|] eqn:Hk; [|done].
  destruct (good_child h a n k c) as (b & -> & Hb); auto.
  apply IH; auto using wf_ptr_Some.
Qed.

(** The loop of [search] never crashes on a well-formed trie, and every
    node it can reach is well formed. *)
Lemma search_loop_wf h s : ∀ p,
  wf_ptr h p → ∃ q, search_loop h p s = Done q ∧ wf_ptr h q.
Proof.
  induction s as [|k s IH]; intros [a|] Hwf;
    try (rewrite search_loop_null; eauto using wf_ptr_None); [by exists (Some a)|].
  destruct (good_lookup h a) as (n & Ha & _); [by apply Hwf|].
  rewrite (search_loop_cons _ _ _ _ _ Ha).
  destruct (children n !! k) as [c|] eqn:Hk; [|eauto using wf_ptr_None].
  destruct (good_child h a n k c) as (b & -> & Hb); auto using wf_ptr_Some.
Qed.

Lemma search_end_total T h p : wf_ptr h p → ∃ r, search_end T h p = Done r.
Proof.
  destruct p as [a|]; intros Hwf; [|by eexists].
  destruct (good_lookup h a) as (n & Ha & _); [by apply Hwf|].
  unfold search_end. rewrite Ha.
  destruct (dynamic_cast T n); [destruct (isEndOfWord n)|]; eauto.
Qed.

Lemma search_at_total T h p s : wf_ptr h p → ∃ r, search_at T h p s = Done r.
Proof.
  intros Hwf. destruct (search_loop_wf h s p Hwf) as (q & Hq & Hwq).
  unfold search_at. rewrite Hq. by apply search_end_total.
Qed.

(** A dead node answers every query with not-found. *)
Lemma search_at_dead T h a n s :
  h !! a = Some n → is_dead n = true → search_at T h (Some a) s = Done None.
Proof.
  intros Ha Hd. apply andb_true_iff in Hd as [Hc Hf].
  apply bool_decide_eq_true in Hc. apply negb_true_iff in Hf.
  destruct s as [|k s].
  - rewrite search_at_nil. unfold search_end. rewrite Ha, Hf.
    by destruct (dynamic_cast T n).
  - rewrite (search_at_cons _ _ _ _ _ _ Ha), Hc. by rewrite lookup_empty.
Qed.

Lemma good_inv h a n :
  good h a → h !! a = Some n →
  class_inv n ∧ is_dead n = false ∧
  (∀ k, children n !! k ≠ Some None) ∧
  (∀ k b, children n !! k = Some (Some b) → good h b).
Proof.
  intros [a' m Hm Hc Hd Hnn Hch] Ha. by assert (m = n) as <- by congruence.
Qed.

Lemma is_dead_flag n : isEndOfWord n = true → is_dead n = false.
Proof. unfold is_dead. intros ->. apply andb_false_r. Qed.

Lemma is_dead_child n k c : children n !! k = Some c → is_dead n = false.
Proof.
  intros Hk. unfold is_dead. rewrite bool_decide_eq_false_2; [done|].
  intros He. by rewrite He, lookup_empty in Hk.
Qed.

(** Writing into the cell that was allocated last. *)
Lemma set_child_fresh_run h n k next :
  set_child (length h) k next (h ++ [n]) = Done (tt, h ++ [put_child k next n]).
Proof.
  unfold set_child. rewrite (update_run _ _ _ _ (lookup_fresh h n)).
  by rewrite insert_app_r_alt, Nat.sub_diag.
Qed.

(** ** [insert]: the path-copying descent *)

(** The terminal step with an existing node: its children are carried
    over into the new value node. *)
Lemma insert_dfs_nil_run T (x : denote T) h a n :
  h !! a = Some n →
  insert_dfs T x "" (Some a) h =
    Done (Some (length h), h ++ [TrieValueNode_with (children n) (Box T x)]).
Proof.
  intros Ha. cbn [insert_dfs]. by rewrite (bind_run _ _ _ _ _ (deref_run _ _ _ Ha)).
Qed.

(** One unwinding step of [insert]'s recursion, for an existing node and
    for a missing one. *)
Lemma insert_dfs_cons_run T (x : denote T) k key h a n b h1 :
  h !! a = Some n →
  insert_dfs T x key (default None (children n !! k)) h = Done (Some b, h1) →
  heap_le h h1 →
  insert_dfs T x (String k key) (Some a) h =
    Done (Some (length h1), h1 ++ [put_child k (Some b) (copy_node n)]).
Proof.
  intros Ha Hrec Hle. cbn [insert_dfs].
  rewrite (bind_run _ _ _ _ _ (find_child_run _ _ _ k Ha)).
  replace (match children n !! k with Some c => c | None => None end)
    with (default None (children n !! k)) by by destruct (children n !! k).
  rewrite (bind_run _ _ _ _ _ Hrec).
  rewrite (bind_run _ _ _ _ _ (copy_run _ _ _ (Hle _ _ Ha))).
  by rewrite (bind_run _ _ _ _ _ (set_child_fresh_run _ _ _ _)).
Qed.

Lemma insert_dfs_cons_null_run T (x : denote T) k key h b h1 :
  insert_dfs T x key None h = Done (Some b, h1) →
  insert_dfs T x (String k key) None h =
    Done (Some (length h1), h1 ++ [put_child k (Some b) TrieNode_default]).
Proof.
  intros Hrec. cbn [insert_dfs]. unfold find_child.
  rewrite (bind_run _ _ _ _ _ (eq_refl : pure None h = Done (None, h))).
  rewrite (bind_run _ _ _ _ _ Hrec).
  rewrite (bind_run _ _ _ _ _ (eq_refl : alloc TrieNode_default h1 = Done (_, _))).
  by rewrite (bind_run _ _ _ _ _ (set_child_fresh_run _ _ _ _)).
Qed.

(** The node built for an ancestor: a copy with one edge redirected. *)
Lemma good_put_child h h' n k b c0 :
  heap_le h h' →
  class_inv n →
  (∀ k', children n !! k' ≠ Some None) →
  (∀ k' b', children n !! k' = Some (Some b') → good h b') →
  good h' b →
  h' !! c0 = Some (put_child k (Some b) n) →
  good h' c0.
Proof.
  intros Hle Hc Hnn Hch Hb Hc0.
  apply (good_node h' c0 _ Hc0).
  - done.
  - apply (is_dead_child _ k (Some b)). simpl. apply lookup_insert_eq.
  - intros k'. simpl. destruct (decide (k = k')) as [<-|Hne].
    + by rewrite lookup_insert_eq.
    + rewrite lookup_insert_ne by done. apply Hnn.
  - intros k' b'. simpl. destruct (decide (k = k')) as [<-|Hne].
    + rewrite lookup_insert_eq. by intros [= <-].
    + rewrite lookup_insert_ne by done. intros Hk'.
      eapply good_mono; eauto.
Qed.

(** The node built at the terminal depth. *)
Lemma good_value_with h h' (c : gmap ascii ptr) (bx : boxed denote) a :
  heap_le h h' →
  (∀ k, c !! k ≠ Some None) →
  (∀ k b, c !! k = Some (Some b) → good h b) →
  h' !! a = Some (TrieValueNode_with c bx) →
  good h' a.
Proof.
  intros Hle Hnn Hch Ha. apply (good_node h' a _ Ha).
  - done.
  - by apply is_dead_flag.
  - apply Hnn.
  - intros k b Hk. eapply good_mono; eauto.
Qed.

Lemma prefix_cons_false c s k key :
  String.prefix (String c s) (String k key) = false →
  c ≠ k ∨ (c = k ∧ String.prefix s key = false).
Proof.
  simpl. destruct (ascii_dec c k) as [->|Hne]; [right|left]; done.
Qed.

(** The specification of the recursion of [insert]: it never crashes on
    a well-formed subtrie, leaves every existing cell alone, returns a
    well-formed subtrie, answers [key] with the new value and every other
    key as before, and reaches through every path that leaves [key] the
    very node the input reached (the subtries off the path are shared). *)
Lemma insert_dfs_spec T (x : denote T) key : ∀ cur h,
  wf_ptr h cur →
  ∃ a h',
    insert_dfs T x key cur h = Done (Some a, h') ∧
    heap_le h h' ∧ good h' a ∧
    (∀ U s, search_at U h' (Some a) s =
            if decide (s = key) then Done (unbox U (Box T x))
            else search_at U h cur s) ∧
    (∀ s, String.prefix s key = false →
          search_loop h' (Some a) s = search_loop h cur s).
Proof.
  induction key as [|k key IH]; intros cur h Hwf.
  - (* the terminal depth *)
    destruct cur as [a|].
    + destruct (good_lookup h a) as (n & Ha & _); [by apply Hwf|].
      destruct (good_inv h a n) as (Hc & Hd & Hnn & Hch); [by apply Hwf|done|].
      eexists _, _. split; [by apply insert_dfs_nil_run|].
      split; [apply heap_le_alloc|]. split; [|split].
      * eapply (good_value_with h); eauto using heap_le_alloc, lookup_fresh.
      * intros U [|c s].
        -- rewrite decide_True by done. rewrite search_at_nil.
           eapply search_end_value_node, lookup_fresh.
        -- rewrite decide_False by done.
           rewrite (search_at_cons _ _ _ _ _ _ (lookup_fresh _ _)).
           rewrite (search_at_cons _ _ _ _ _ _ Ha). simpl.
           destruct (children n !! c) as [q|] eqn:Hq; [|done].
           destruct (good_child h a n c q) as (b & -> & Hb); auto.
           apply search_at_mono; auto using heap_le_alloc, wf_ptr_Some.
      * intros [|c s] Hs; [done|].
        rewrite (search_loop_cons _ _ _ _ _ (lookup_fresh _ _)).
        rewrite (search_loop_cons _ _ _ _ _ Ha). simpl.
        destruct (children n !! c) as [q|] eqn:Hq; [|done].
        destruct (good_child h a n c q) as (b & -> & Hb); auto.
        apply search_loop_mono; auto using heap_le_alloc, wf_ptr_Some.
    + eexists _, _. split; [done|].
      split; [apply heap_le_alloc|]. split; [|split].
      * eapply (good_value_with h _ ∅); [apply heap_le_alloc| | |apply lookup_fresh].
        -- intros k. by rewrite lookup_empty.
        -- intros k b. by rewrite lookup_empty.
      * intros U [|c s].
        -- rewrite decide_True by done. rewrite search_at_nil.
           eapply (search_end_value_node _ _ _ ∅), lookup_fresh.
        -- rewrite decide_False by done.
           rewrite (search_at_cons _ _ _ _ _ _ (lookup_fresh _ _)). simpl.
           by rewrite lookup_empty.
      * intros [|c s] Hs; [done|].
        rewrite (search_loop_cons _ _ _ _ _ (lookup_fresh _ _)). simpl.
        by rewrite lookup_empty.
  - (* an ancestor depth *)
    destruct cur as [a|].
    + destruct (good_lookup h a) as (n & Ha & _); [by apply Hwf|].
      destruct (good_inv h a n) as (Hc & Hd & Hnn & Hch); [by apply Hwf|done|].
      assert (wf_ptr h (default None (children n !! k))) as Hwf'.
      { destruct (children n !! k) as [[b|]|] eqn:Hk; simpl;
          eauto using wf_ptr_None, wf_ptr_Some. }
      destruct (IH _ h Hwf') as (b & h1 & Hrun & Hle & Hb & Hsearch & Hshare).
      eexists _, _. split; [by eapply insert_dfs_cons_run|].
      assert (heap_le h (h1 ++ [put_child k (Some b) (copy_node n)])) as Hle'.
      { eapply heap_le_trans; [done|apply heap_le_alloc]. }
      split; [done|]. split; [|split].
      * eapply (good_put_child h _ (copy_node n) k b);
          [done|apply copy_node_class_inv| | | |apply lookup_fresh].
        -- intros k'. rewrite copy_node_children. apply Hnn.
        -- intros k' b'. rewrite copy_node_children. apply Hch.
        -- eapply good_mono; [apply heap_le_alloc|done].
      * intros U [|c s].
        -- rewrite decide_False by done. rewrite !search_at_nil.
           eapply search_end_same; [done|apply lookup_fresh| |]; simpl.
           ++ apply copy_node_value.
           ++ by apply copy_node_flag.
        -- rewrite (search_at_cons _ _ _ _ _ _ (lookup_fresh _ _)).
           rewrite (search_at_cons _ _ _ _ _ _ Ha). simpl.
           rewrite copy_node_children.
           destruct (decide (k = c)) as [<-|Hne].
           ++ rewrite lookup_insert_eq.
              rewrite (search_at_mono U h1) by auto using heap_le_alloc, wf_ptr_Some.
              rewrite Hsearch.
              destruct (decide (s = key)) as [->|Hs].
              ** by rewrite decide_True.
              ** rewrite decide_False by congruence.
                 destruct (children n !! k) as [q|]; simpl; [done|].
                 apply search_at_null.
           ++ rewrite lookup_insert_ne by done.
              rewrite decide_False by congruence.
              destruct (children n !! c) as [q|] eqn:Hq; [|done].
              destruct (good_child h a n c q) as (b' & -> & Hb'); auto.
              apply search_at_mono; auto using wf_ptr_Some.
      * intros [|c s] Hs; [done|].
        rewrite (search_loop_cons _ _ _ _ _ (lookup_fresh _ _)).
        rewrite (search_loop_cons _ _ _ _ _ Ha). simpl.
        rewrite copy_node_children.
        destruct (prefix_cons_false _ _ _ _ Hs) as [Hne|[-> Hs']].
        -- rewrite lookup_insert_ne by done.
           destruct (children n !! c) as [q|] eqn:Hq; [|done].
           destruct (good_child h a n c q) as (b' & -> & Hb'); auto.
           apply search_loop_mono; auto using wf_ptr_Some.
        -- rewrite lookup_insert_eq.
           rewrite (search_loop_mono h1) by auto using heap_le_alloc, wf_ptr_Some.
           rewrite (Hshare _ Hs').
           destruct (children n !! k) as [q|]; simpl; [done|].
           apply search_loop_null.
    + destruct (IH None h (wf_ptr_None h))
        as (b & h1 & Hrun & Hle & Hb & Hsearch & Hshare).
      eexists _, _. split; [by eapply insert_dfs_cons_null_run|].
      split; [eapply heap_le_trans; [done|apply heap_le_alloc]|].
      split; [|split].
      * eapply (good_put_child [] _ TrieNode_default k b);
          [by intros ??|done| | | |apply lookup_fresh].
        -- intros k'. simpl. by rewrite lookup_empty.
        -- intros k' b'. simpl. by rewrite lookup_empty.
        -- eapply good_mono; [apply heap_le_alloc|done].
      * intros U [|c s].
        -- rewrite decide_False by done. rewrite search_at_nil.
           by eapply search_end_plain; [apply lookup_fresh|].
        -- rewrite (search_at_cons _ _ _ _ _ _ (lookup_fresh _ _)). simpl.
           rewrite search_at_null.
           destruct (decide (k = c)) as [<-|Hne].
           ++ rewrite lookup_insert_eq.
              rewrite (search_at_mono U h1) by auto using heap_le_alloc, wf_ptr_Some.
              rewrite Hsearch, search_at_null.
              destruct (decide (s = key)) as [->|Hs].
              ** by rewrite decide_True.
              ** by rewrite decide_False by congruence.
           ++ rewrite lookup_insert_ne by done.
              rewrite decide_False by congruence. by rewrite lookup_empty.
      * intros [|c s] Hs; [done|].
        rewrite (search_loop_null h).
        rewrite (search_loop_cons _ _ _ _ _ (lookup_fresh _ _)). simpl.
        destruct (prefix_cons_false _ _ _ _ Hs) as [Hne|[-> Hs']].
        -- rewrite lookup_insert_ne by done. by rewrite lookup_empty.
        -- rewrite lookup_insert_eq.
           rewrite (search_loop_mono h1) by auto using heap_le_alloc, wf_ptr_Some.
           by rewrite (Hshare _ Hs'), search_loop_null.
Qed.

(** ** [remove]: descent, terminal replacement and pruning *)

(** The terminal step: a plain node with the same children, the flag
    cleared and the value dropped. *)
Lemma remove_dfs_nil_run h a n :
  h !! a = Some n →
  remove_dfs "" (Some a) h =
    Done (Some (length h), h ++ [TrieNode_of (children n)]).
Proof.
  intros Ha. cbn [remove_dfs]. by rewrite (bind_run _ _ _ _ _ (deref_run _ _ _ Ha)).
Qed.

Lemma remove_dfs_cons_absent_run h a n k key :
  h !! a = Some n → children n !! k = None →
  remove_dfs (String k key) (Some a) h = Done (None, h ++ [copy_node n]).
Proof.
  intros Ha Hk. cbn [remove_dfs].
  rewrite (bind_run _ _ _ _ _ (copy_run _ _ _ Ha)).
  rewrite (bind_run _ _ _ _ _ (find_child_run _ _ _ k (heap_le_alloc _ _ _ _ Ha))).
  by rewrite Hk.
Qed.

Lemma remove_dfs_cons_none_run h a n k c key h2 :
  h !! a = Some n → children n !! k = Some c →
  remove_dfs key c (h ++ [copy_node n]) = Done (None, h2) →
  remove_dfs (String k key) (Some a) h = Done (None, h2).
Proof.
  intros Ha Hk Hrec. cbn [remove_dfs].
  rewrite (bind_run _ _ _ _ _ (copy_run _ _ _ Ha)).
  rewrite (bind_run _ _ _ _ _ (find_child_run _ _ _ k (heap_le_alloc _ _ _ _ Ha))).
  rewrite Hk. by rewrite (bind_run _ _ _ _ _ Hrec).
Qed.

Lemma remove_dfs_cons_some_run h a n k c key nb nn h2 :
  h !! a = Some n → children n !! k = Some c →
  remove_dfs key c (h ++ [copy_node n]) = Done (Some nb, h2) →
  h2 !! nb = Some nn →
  h2 !! length h = Some (copy_node n) →
  remove_dfs (String k key) (Some a) h =
    Done (Some (length h),
          <[length h := if is_dead nn then drop_child k (copy_node n)
                        else put_child k (Some nb) (copy_node n)]> h2).
Proof.
  intros Ha Hk Hrec Hnb Hr. cbn [remove_dfs].
  rewrite (bind_run _ _ _ _ _ (copy_run _ _ _ Ha)).
  rewrite (bind_run _ _ _ _ _ (find_child_run _ _ _ k (heap_le_alloc _ _ _ _ Ha))).
  rewrite Hk. rewrite (bind_run _ _ _ _ _ Hrec).
  rewrite (bind_run _ _ _ _ _ (deref_run _ _ _ Hnb)).
  destruct (is_dead nn).
  - unfold erase_child. by rewrite (bind_run _ _ _ _ _ (update_run _ _ _ _ Hr)).
  - unfold set_child. by rewrite (bind_run _ _ _ _ _ (update_run _ _ _ _ Hr)).
Qed.

Lemma class_inv_put_child k next n : class_inv n → class_inv (put_child k next n).
Proof. done. Qed.

Lemma class_inv_drop_child k n : class_inv n → class_inv (drop_child k n).
Proof. done. Qed.

(** The specification of the recursion of [remove].  The heap [h0] is
    one in which the subtrie at [a] is well formed; the recursion runs in
    a later heap [h], whose cells from [length h0] on are the clones its
    callers still hold privately.  The result is described in every heap
    [h''] that differs from the final one on those cells only, which is
    what lets a caller write into its own clone afterwards. *)
Lemma remove_dfs_spec key : ∀ a h0 h,
  heap_le h0 h → good h0 a →
  ∃ r h',
    remove_dfs key (Some a) h = Done (r, h') ∧ heap_le h h' ∧
    match r with
    | None => search_loop h0 (Some a) key = Done None
    | Some b =>
        length h ≤ b ∧
        (∃ q, search_loop h0 (Some a) key = Done (Some q)) ∧
        ∀ h'', agree_outside (length h0) (length h) h' h'' →
          shell h'' b ∧
          ∀ U s, search_at U h'' (Some b) s =
                 if decide (s = key) then Done None
                 else search_at U h0 (Some a) s
    end.
Proof.
  induction key as [|k key IH]; intros a h0 h Hle Hg.
  - (* the terminal depth *)
    destruct (good_lookup h0 a) as (n & Ha & _); [done|].
    destruct (good_inv h0 a n) as (Hc & Hd & Hnn & Hch); [done..|].
    eexists _, _. split; [by apply remove_dfs_nil_run, Hle|].
    split; [apply heap_le_alloc|]. split; [done|]. split; [by eexists|].
    intros h'' Hag.
    assert (h'' !! length h = Some (TrieNode_of (children n))) as Hnew.
    { apply Hag; [by right|apply lookup_fresh]. }
    assert (heap_le h0 h'') as Hle''.
    { intros a' m Hm. apply Hag; [left; by eapply lookup_lt_Some|].
      by apply heap_le_alloc, Hle. }
    split.
    + exists (TrieNode_of (children n)). repeat split; [done|done|].
      intros k b Hk. eapply good_mono; [done|]. eapply Hch, Hk.
    + intros U [|c s].
      * rewrite decide_True by done. rewrite search_at_nil.
        by eapply search_end_plain.
      * rewrite decide_False by done.
        rewrite (search_at_cons _ _ _ _ _ _ Hnew), (search_at_cons _ _ _ _ _ _ Ha).
        simpl. destruct (children n !! c) as [q|] eqn:Hq; [|done].
        destruct (good_child h0 a n c q) as (b & -> & Hb); auto.
        apply search_at_mono; auto using wf_ptr_Some.
  - (* an ancestor depth *)
    destruct (good_lookup h0 a) as (n & Ha & _); [done|].
    destruct (good_inv h0 a n) as (Hc & Hd & Hnn & Hch); [done..|].
    destruct (children n !! k) as [c|] eqn:Hk; cycle 1.
    { (* the edge is absent *)
      eexists _, _. split; [by eapply remove_dfs_cons_absent_run; [apply Hle|]|].
      split; [apply heap_le_alloc|].
      by rewrite (search_loop_cons _ _ _ _ _ Ha), Hk. }
    destruct (good_child h0 a n k c) as (b & -> & Hb); auto.
    set (h1 := h ++ [copy_node n]).
    assert (heap_le h h1) as Hle1 by apply heap_le_alloc.
    destruct (IH b h0 h1) as (r2 & h2 & Hrun & Hle2 & Hpost);
      [by eapply heap_le_trans|done|].
    destruct r2 as [nb|]; cycle 1.
    { (* the key is absent further down *)
      eexists _, _. split; [by eapply remove_dfs_cons_none_run; [apply Hle| |]|].
      split; [by eapply heap_le_trans|].
      by rewrite (search_loop_cons _ _ _ _ _ Ha), Hk. }
    destruct Hpost as (Hfresh & [q Hq] & Hpost).
    destruct (Hpost h2 (agree_outside_refl _ _ _)) as [(nn & Hnb & _) _].
    assert (h2 !! length h = Some (copy_node n)) as Hr.
    { apply Hle2. apply lookup_fresh. }
    assert (length h0 ≤ length h) as Hlen by by apply heap_le_length.
    assert (length h1 = S (length h)) as Hlen1.
    { unfold h1. rewrite length_app. simpl. lia. }
    set (n3 := if is_dead nn then drop_child k (copy_node n)
               else put_child k (Some nb) (copy_node n)).
    eexists _, _. split; [by eapply remove_dfs_cons_some_run; [apply Hle| | | |]|].
    fold n3.
    assert (heap_le h (<[length h := n3]> h2)) as Hle3.
    { apply heap_le_update_fresh; [by eapply heap_le_trans|done]. }
    split; [done|]. split; [done|]. split.
    { exists q. by rewrite (search_loop_cons _ _ _ _ _ Ha), Hk. }
    intros h'' Hag.
    assert (h'' !! length h = Some n3) as Hnew.
    { apply Hag; [by right|]. apply list_lookup_insert_eq.
      by eapply lookup_lt_Some. }
    assert (agree_outside (length h0) (length h1) h2 h'') as Hag2.
    { intros a' m Hout Hm. apply Hag; [lia|].
      rewrite list_lookup_insert_ne by lia. done. }
    assert (heap_le h0 h'') as Hle''.
    { intros a' m Hm. apply Hag; [left; by eapply lookup_lt_Some|].
      by apply Hle3, Hle. }
    destruct (Hpost h'' Hag2) as [Hshell Hsearch].
    assert (h'' !! nb = Some nn) as Hnb''.
    { apply Hag2; [right; lia|done]. }
    assert (class_inv n3) as Hc3.
    { unfold n3. destruct (is_dead nn);
        [apply class_inv_drop_child|apply class_inv_put_child];
        apply copy_node_class_inv. }
    assert (value n3 = value n) as Hv3.
    { unfold n3. destruct (is_dead nn); simpl; apply copy_node_value. }
    assert (isEndOfWord n3 = isEndOfWord n) as Hf3.
    { unfold n3. destruct (is_dead nn); simpl; by apply copy_node_flag. }
    assert (∀ c, c ≠ k → children n3 !! c = children n !! c) as Hother.
    { intros c Hne. unfold n3. destruct (is_dead nn); simpl;
        rewrite copy_node_children.
      - by apply lookup_delete_ne.
      - by apply lookup_insert_ne. }
    assert (children n3 !! k = if is_dead nn then None else Some (Some nb)) as Hthis.
    { unfold n3. destruct (is_dead nn); simpl.
      - apply lookup_delete_eq.
      - apply lookup_insert_eq. }
    split.
    + exists n3. split; [done|]. split; [done|]. split.
      * intros k'. destruct (decide (k' = k)) as [->|Hne].
        -- rewrite Hthis. by destruct (is_dead nn).
        -- rewrite Hother by done. apply Hnn.
      * intros k' b'. destruct (decide (k' = k)) as [->|Hne].
        -- rewrite Hthis. destruct (is_dead nn) eqn:Hdead; [done|].
           intros [= <-]. by eapply shell_good.
        -- rewrite Hother by done. intros Hk'.
           eapply good_mono; [done|]. eapply Hch, Hk'.
    + intros U [|c s].
      * rewrite decide_False by done. rewrite !search_at_nil.
        by eapply search_end_same.
      * rewrite (search_at_cons _ _ _ _ _ _ Hnew), (search_at_cons _ _ _ _ _ _ Ha).
        destruct (decide (c = k)) as [->|Hne].
        -- rewrite Hthis, Hk.
           specialize (Hsearch U s).
           destruct (is_dead nn) eqn:Hdead.
           ++ rewrite (search_at_dead _ _ _ _ _ Hnb'' Hdead) in Hsearch.
              destruct (decide (s = key)) as [->|Hs].
              ** by rewrite decide_True.
              ** by rewrite decide_False by congruence.
           ++ rewrite Hsearch.
              destruct (decide (s = key)) as [->|Hs].
              ** by rewrite decide_True.
              ** by rewrite decide_False by congruence.
        -- rewrite Hother by done. rewrite decide_False by congruence.
           destruct (children n !! c) as [p|] eqn:Hp; [|done].
           destruct (good_child h0 a n c p) as (b' & -> & Hb'); auto.
           apply search_at_mono; auto using wf_ptr_Some.
Qed.

(** ** The public operations on well-formed versions *)

Lemma insert_spec T t key (x : denote T) h :
  wf_trie h t →
  ∃ t' h',
    insert T t key x h = Done (t', h') ∧
    heap_le h h' ∧ wf_trie h' t' ∧
    (∀ U s, search U t' s h' =
            if decide (s = key) then Done (unbox U (Box T x))
            else search U t s h) ∧
    (∀ s, String.prefix s key = false →
          search_loop h' (root t') s = search_loop h (root t) s).
Proof.
  intros Hwf.
  destruct (insert_dfs_spec T x key (root t) h Hwf)
    as (a & h' & Hrun & Hle & Hg & Hsearch & Hshare).
  exists (MkTrie (Some a)), h'. split.
  { unfold insert. by rewrite (bind_run _ _ _ _ _ Hrun). }
  split; [done|]. split; [by apply wf_ptr_Some|]. by split.
Qed.

Lemma remove_spec t key h :
  wf_trie h t →
  ∃ t' h',
    remove t key h = Done (t', h') ∧
    heap_le h h' ∧ wf_trie h' t' ∧
    (∀ U s, search U t' s h' =
            if decide (s = key) then Done None else search U t s h) ∧
    (search_loop h (root t) key = Done None → root t' = root t).
Proof.
  intros Hwf. unfold remove, search. destruct t as [[a|]]; simpl in *.
  - assert (good h a) as Hg by by apply Hwf.
    destruct (remove_dfs_spec key a h h (heap_le_refl h) Hg)
      as (r & h' & Hrun & Hle & Hpost).
    rewrite (bind_run _ _ _ _ _ Hrun). destruct r as [b|].
    + destruct Hpost as (Hfresh & [q Hq] & Hpost).
      destruct (Hpost h' (agree_outside_refl _ _ _)) as [Hshell Hsearch].
      destruct Hshell as (nb & Hb & Hshell).
      rewrite (bind_run _ _ _ _ _ (deref_run _ _ _ Hb)).
      destruct (is_dead nb) eqn:Hdead.
      * (* the new root is dead: the result is the empty version *)
        eexists _, _. split; [done|]. split; [done|].
        split; [apply wf_ptr_None|]. split; [|by rewrite Hq].
        intros U s. simpl. rewrite search_at_null.
        specialize (Hsearch U s).
        rewrite (search_at_dead _ _ _ _ _ Hb Hdead) in Hsearch.
        by destruct (decide (s = key)).
      * eexists _, _. split; [done|]. split; [done|]. split.
        { apply wf_ptr_Some. eapply shell_good; [by exists nb|done..]. }
        split; [done|by rewrite Hq].
    + (* some edge of the path is missing: the input version is returned *)
      eexists _, _. split; [done|]. split; [done|].
      split; [by eapply wf_ptr_mono|]. split; [|done].
      intros U s. simpl. rewrite (search_at_mono U h h') by done.
      destruct (decide (s = key)) as [->|]; [|done].
      unfold search_at. by rewrite Hpost.
  - eexists _, _. split; [done|]. split; [apply heap_le_refl|].
    split; [done|]. split; [|done].
    intros U s. rewrite !search_at_null. by destruct (decide (s = key)).
Qed.

Lemma apply_op_spec (o : op denote) t h :
  wf_trie h t →
  ∃ t' h', apply_op o t h = Done (t', h') ∧ heap_le h h' ∧ wf_trie h' t'.
Proof.
  intros Hwf. destruct o as [T key x|key]; simpl.
  - destruct (insert_spec T t key x h Hwf) as (t' & h' & ? & ? & ? & _). eauto.
  - destruct (remove_spec t key h Hwf) as (t' & h' & ? & ? & ? & _). eauto.
Qed.

Lemma apply_op_heap_le (o : op denote) t h t' h' :
  wf_trie h t → apply_op o t h = Done (t', h') → heap_le h h' ∧ wf_trie h' t'.
Proof.
  intros Hwf Hrun.
  destruct (apply_op_spec o t h Hwf) as (t'' & h'' & Hrun' & Hle & Hwf').
  rewrite Hrun in Hrun'. by injection Hrun' as -> ->.
Qed.

(** Every version of every history is well formed. *)
Lemma built_wf h t (ops : list (op denote)) : built h t ops → wf_trie h t.
Proof.
  induction 1 as [|h t ops o t' h' Hb IH Hrun
                  |h t ops t0 ops0 o t' h' Hb IH Hb0 IH0 Hrun].
  - apply wf_ptr_None.
  - by eapply apply_op_heap_le.
  - eapply wf_ptr_mono; [|done]. by eapply apply_op_heap_le.
Qed.

(** Searching a well-formed version in a later heap. *)
Lemma search_mono T t s h h' :
  heap_le h h' → wf_trie h t → search T t s h' = search T t s h.
Proof. intros. by apply search_at_mono. Qed.

(** Every node of a well-formed version that a path reaches is itself
    the root of a well-formed subtrie. *)
Lemma reaches_good h p s a : wf_ptr h p → reaches h p s a → good h a.
Proof.
  intros Hwf Hr. destruct (search_loop_wf h s p Hwf) as (q & Hq & Hwq).
  unfold reaches in Hr. rewrite Hr in Hq. injection Hq as <-. by apply Hwq.
Qed.

(** A well-formed non-empty trie stores at least one key. *)
Lemma good_has_key h a :
  good h a → ∃ s U (x : denote U), search_at U h (Some a) s = Done (Some x).
Proof.
  induction 1 as [a n Ha Hc Hd Hnn Hch IH].
  destruct (isEndOfWord n) eqn:Hf.
  - unfold class_inv in Hc. rewrite Hf in Hc.
    destruct (value n) as [[U x]|] eqn:Hv; [|done].
    exists "", U, x. rewrite search_at_nil. unfold search_end, dynamic_cast.
    by rewrite Ha, Hv, Hf, unbox_same.
  - unfold is_dead in Hd. rewrite Hf, andb_true_r in Hd.
    apply bool_decide_eq_false in Hd.
    destruct (map_choose _ Hd) as (k & c & Hk).
    destruct c as [b|]; [|by destruct (Hnn k)].
    destruct (IH k b Hk) as (s & U & x & Hs).
    exists (String k s), U, x.
    by rewrite (search_at_cons _ _ _ _ _ _ Ha), Hk.
Qed.

(** A key at which no operation of the history inserted is not found. *)
Lemma never_inserted_not_found h t (ops : list (op denote)) key :
  built h t ops →
  Forall (λ o, op_inserts_at key o = false) ops →
  ∀ T, search T t key h = Done None.
Proof.
  induction 1 as [|h t ops o t' h' Hb IH Hrun
                  |h t ops t0 ops0 o t' h' Hb IH Hb0 IH0 Hrun]; intros Hops T.
  - apply search_at_null.
  - apply Forall_app in Hops as [Hops Ho]. apply Forall_inv in Ho.
    specialize (IH Hops T). apply built_wf in Hb.
    destruct o as [U k x|k]; simpl in *.
    + apply bool_decide_eq_false in Ho.
      destruct (insert_spec U t k x h Hb) as (t'' & h'' & Hrun' & _ & _ & Hs & _).
      rewrite Hrun in Hrun'. injection Hrun' as <- <-.
      rewrite Hs. by rewrite decide_False by congruence.
    + destruct (remove_spec t k h Hb) as (t'' & h'' & Hrun' & _ & _ & Hs & _).
      rewrite Hrun in Hrun'. injection Hrun' as <- <-.
      rewrite Hs. by destruct (decide (key = k)).
  - destruct (apply_op_heap_le o t0 h t' h') as [Hle _]; eauto using built_wf.
    rewrite (search_mono T t key h h'); eauto using built_wf.
Qed.

(** Every driver runs to completion and ends in a version of a history. *)
Lemma run_ops_built (ops : list (op denote)) :
  ∃ t h, run_ops ops = Done (t, h) ∧ built h t ops.
Proof.
  induction ops as [|o ops IH] using rev_ind.
  - exists Trie_default, []. split; [done|apply built_empty].
  - destruct IH as (t & h & Hrun & Hb).
    destruct (apply_op_spec o t h (built_wf _ _ _ Hb)) as (t' & h' & Ho & _).
    exists t', h'. split.
    + unfold run_ops in *. by rewrite fold_left_app, Hrun.
    + by eapply built_step.
Qed.

Lemma append_ne_self key : ∀ r, r ≠ "" → key +:+ r ≠ key.
Proof.
  induction key as [|k key IH]; intros r Hr; simpl; [done|].
  intros [= He]. by apply (IH r).
Qed.

Lemma class_inv_constructed n : class_inv n ↔ constructed n.
Proof.
  split.
  - destruct n as [f c [bx|]]; unfold class_inv; simpl; intros ->.
    + apply (constructed_value_with c bx).
    + apply (constructed_of c).
  - by destruct 1.
Qed.

(** * The claims *)

(** C1.  In every version [v] built from the empty version, inserting
    the value [x] of type [T] at any key [k] returns a version in which
    [search<T>] at [k] finds [x].  Whatever [v] held at [k] is replaced:
    at every other type [U] the key is no longer found. *)
Theorem search_insert_same h v (ops : list (op denote)) T (k : string) (x : denote T) :
  built h v ops →
  ∃ v' h',
    insert T v k x h = Done (v', h') ∧
    search T v' k h' = Done (Some x) ∧
    ∀ U, U ≠ T → search U v' k h' = Done None.
Proof.
  intros Hb. apply built_wf in Hb.
  destruct (insert_spec T v k x h Hb) as (v' & h' & Hrun & _ & _ & Hs & _).
  exists v', h'. split; [done|]. split.
  - by rewrite Hs, decide_True, unbox_same.
  - intros U HU. by rewrite Hs, decide_True, unbox_other.
Qed.

(** C2.  In every version [v] built from the empty version, [remove] at
    any key [k] returns a version in which [k] is not found at any type,
    while every other key [k2], in particular every key that strictly
    extends [k], is answered as in [v].  At the terminal depth the node is
    replaced by a plain node with the same children, the flag cleared and
    no value. *)
Theorem search_remove h v (ops : list (op denote)) (k : string) :
  built h v ops →
  ∃ v' h',
    remove v k h = Done (v', h') ∧
    (∀ T, search T v' k h' = Done None) ∧
    (∀ T (k2 : string), k2 ≠ k → search T v' k2 h' = search T v k2 h) ∧
    (∀ T r, r ≠ "" → search T v' (k +:+ r) h' = search T v (k +:+ r) h) ∧
    (∀ a n, h !! a = Some n →
       remove_dfs "" (Some a) h =
         Done (Some (length h),
               h ++ [{| isEndOfWord := false; children := children n;
                        value := None |}])).
Proof.
  intros Hb. apply built_wf in Hb.
  destruct (remove_spec v k h Hb) as (v' & h' & Hrun & _ & _ & Hs & _).
  exists v', h'. split; [done|]. split; [|split; [|split]].
  - intros T. by rewrite Hs, decide_True.
  - intros T k2 Hne. by rewrite Hs, decide_False.
  - intros T r Hr. rewrite Hs, decide_False; [done|]. by apply append_ne_self.
  - intros a n Ha. by apply remove_dfs_nil_run.
Qed.

(** C3.  In every version [v], if a key holds a value of type [U] then
    [search<T>] at that key with any other type [T] is not-found, the
    answer given for an absent key; and values of independently chosen
    types inserted at two different keys are each found at their own
    type. *)
Theorem search_type_checked h v (ops : list (op denote)) :
  built h v ops →
  (∀ key U (x : denote U) T,
     search U v key h = Done (Some x) → T ≠ U →
     search T v key h = Done None) ∧
  (∀ T1 T2 (k1 k2 : string) (x1 : denote T1) (x2 : denote T2),
     k1 ≠ k2 →
     ∃ v1 h1 v2 h2,
       insert T1 v k1 x1 h = Done (v1, h1) ∧
       insert T2 v1 k2 x2 h1 = Done (v2, h2) ∧
       search T1 v2 k1 h2 = Done (Some x1) ∧
       search T2 v2 k2 h2 = Done (Some x2)).
Proof.
  intros Hb. split.
  - intros key U x T. unfold search, search_at.
    destruct (search_loop h (root v) key) as [[a|]|]; try done.
    unfold search_end. destruct (h !! a) as [n|]; [|done].
    unfold dynamic_cast. destruct (value n) as [bx|]; [|done].
    destruct (unbox U bx) as [y|] eqn:Hy; [|done].
    apply unbox_Some in Hy as ->. intros _ HT.
    by rewrite unbox_other.
  - intros T1 T2 k1 k2 x1 x2 Hne. apply built_wf in Hb.
    destruct (insert_spec T1 v k1 x1 h Hb)
      as (v1 & h1 & Hrun1 & _ & Hwf1 & Hs1 & _).
    destruct (insert_spec T2 v1 k2 x2 h1 Hwf1)
      as (v2 & h2 & Hrun2 & _ & _ & Hs2 & _).
    exists v1, h1, v2, h2. repeat split; [done..| |].
    + rewrite Hs2, decide_False by done.
      by rewrite Hs1, decide_True, unbox_same.
    + by rewrite Hs2, decide_True, unbox_same.
Qed.

(** Removing a key that is absent changes no answer; and when the walk
    along the key finds an edge missing (or the version is empty) the
    very root of the input version is returned. *)
Lemma remove_absent_noop h v (ops : list (op denote)) (k : string) :
  built h v ops →
  (∀ T, search T v k h = Done None) →
  ∃ v' h',
    remove v k h = Done (v', h') ∧
    (∀ T (k2 : string), search T v' k2 h' = search T v k2 h) ∧
    (search_loop h (root v) k = Done None → root v' = root v).
Proof.
  intros Hb Habs. apply built_wf in Hb.
  destruct (remove_spec v k h Hb) as (v' & h' & Hrun & _ & _ & Hs & Hroot).
  exists v', h'. split; [done|]. split; [|done].
  intros T k2. rewrite Hs. destruct (decide (k2 = k)) as [->|]; [|done].
  by rewrite Habs.
Qed.

(** C5.  In every version built from the empty version no node reachable
    from the root has empty children and a cleared flag; a version answers
    every query with not-found exactly when its root is null; so a
    removal that empties the trie returns a null root. *)
Theorem no_dead_nodes h v (ops : list (op denote)) :
  built h v ops →
  (∀ s a n, reaches h (root v) s a → h !! a = Some n →
            ¬ (children n = ∅ ∧ isEndOfWord n = false)) ∧
  ((∀ T s, search T v s h = Done None) ↔ root v = None) ∧
  (∀ key v' h',
     remove v key h = Done (v', h') →
     (∀ T s, search T v' s h' = Done None) → root v' = None).
Proof.
  intros Hb.
  assert (∀ h v, wf_trie h v →
            (∀ T s, search T v s h = Done None) → root v = None) as Hempty.
  { intros h0 v0 Hwf Hall. destruct v0 as [[a|]]; [|done].
    destruct (good_has_key h0 a) as (s & U & x & Hs); [by apply Hwf|].
    specialize (Hall U s). unfold search in Hall. simpl in Hall. congruence. }
  split; [|split].
  - intros s a n Hr Ha [Hc Hf].
    destruct (good_inv h a n) as (_ & Hd & _);
      [by eapply reaches_good; [eapply built_wf|]|done|].
    unfold is_dead in Hd. by rewrite Hc, Hf, bool_decide_eq_true_2 in Hd.
  - split; [apply Hempty; by eapply built_wf|].
    intros Hroot T s. unfold search. rewrite Hroot. apply search_at_null.
  - intros key v' h' Hrun. apply Hempty.
    by apply (apply_op_heap_le (OpRemove key) v h v' h'); [eapply built_wf|].
Qed.

(** C6.  In every version [v] built from the empty version, inserting at
    [k] returns a version that answers every other key [k2] as [v] does
    and that reaches, along every path that is not a prefix of [k], the
    same node as [v]: only the path of [k] is new.  When a node already
    exists at [k] the new value node carries its children over. *)
Theorem search_insert_other h v (ops : list (op denote)) T (k : string) (x : denote T) :
  built h v ops →
  ∃ v' h',
    insert T v k x h = Done (v', h') ∧
    (∀ U (k2 : string), k2 ≠ k → search U v' k2 h' = search U v k2 h) ∧
    (∀ s, String.prefix s k = false →
          search_loop h' (root v') s = search_loop h (root v) s) ∧
    (∀ a n, h !! a = Some n →
       insert_dfs T x "" (Some a) h =
         Done (Some (length h),
               h ++ [{| isEndOfWord := true; children := children n;
                        value := Some (Box T x) |}])).
Proof.
  intros Hb. apply built_wf in Hb.
  destruct (insert_spec T v k x h Hb) as (v' & h' & Hrun & _ & _ & Hs & Hsh).
  exists v', h'. split; [done|]. split; [|split; [done|]].
  - intros U k2 Hne. by rewrite Hs, decide_False.
  - intros a n Ha. by apply insert_dfs_nil_run.
Qed.

(** C7.  An [insert] or a [remove] on a version [v] built from the empty
    version leaves every cell of the heap as it was, so no node of [v] is
    written after its construction, and every search against [v] returns
    afterwards what it returned before. *)
Theorem old_version_unchanged h v (ops : list (op denote)) :
  built h v ops →
  (∀ T (k : string) (x : denote T) v2 h2,
     insert T v k x h = Done (v2, h2) →
     (∀ a n, h !! a = Some n → h2 !! a = Some n) ∧
     (∀ U s, search U v s h2 = search U v s h)) ∧
  (∀ (k : string) v2 h2,
     remove v k h = Done (v2, h2) →
     (∀ a n, h !! a = Some n → h2 !! a = Some n) ∧
     (∀ U s, search U v s h2 = search U v s h)).
Proof.
  intros Hb. apply built_wf in Hb.
  assert (∀ o v2 h2, apply_op o v h = Done (v2, h2) →
            heap_le h h2 ∧ ∀ U s, search U v s h2 = search U v s h) as Hop.
  { intros o v2 h2 Hrun.
    destruct (apply_op_heap_le o v h v2 h2 Hb Hrun) as [Hle _].
    split; [done|]. intros U s. by apply search_mono. }
  split.
  - intros T k x v2 h2 Hrun. by apply (Hop (OpInsert T k x) v2 h2).
  - intros k v2 h2 Hrun. by apply (Hop (OpRemove k) v2 h2).
Qed.

(** C8.  The empty key is a storage location of its own: in every
    version built from the empty version, the empty one included,
    inserting [x] at the empty key makes [search] at the empty key find
    [x]; and in a version whose history has no insertion at the empty key,
    [search] at the empty key is not-found. *)
Theorem empty_key_is_a_key h v (ops : list (op denote)) :
  built h v ops →
  (∀ T (x : denote T),
     ∃ v' h', insert T v "" x h = Done (v', h') ∧
              search T v' "" h' = Done (Some x)) ∧
  (Forall (λ o, op_inserts_at "" o = false) ops →
   ∀ T, search T v "" h = Done None).
Proof.
  intros Hb. split.
  - intros T x.
    destruct (insert_spec T v "" x h (built_wf _ _ _ Hb))
      as (v' & h' & Hrun & _ & _ & Hs & _).
    exists v', h'. split; [done|]. by rewrite Hs, decide_True, unbox_same.
  - by apply never_inserted_not_found.
Qed.

(** C9.  For every node [n] that the constructors of [TrieNode] and
    [TrieValueNode] build, [n.copy()] is a new object with the same
    children, the same end-of-word flag and, if [n] carries a value, the
    same value; the original is left as it was. *)
Theorem copy_is_shallow_clone h a n :
  h !! a = Some n → constructed n →
  ∃ a' n' h',
    copy (Some a) h = Done (a', h') ∧
    a' ≠ a ∧ h' !! a = Some n ∧ h' !! a' = Some n' ∧
    children n' = children n ∧
    isEndOfWord n' = isEndOfWord n ∧
    value n' = value n.
Proof.
  intros Ha Hn. exists (length h), (copy_node n), (h ++ [copy_node n]).
  split; [by apply copy_run|]. split.
  { apply lookup_lt_Some in Ha. lia. }
  split; [by apply heap_le_alloc|]. split; [apply lookup_fresh|].
  split; [apply copy_node_children|]. split; [|apply copy_node_value].
  by apply copy_node_flag, class_inv_constructed.
Qed.

(** C10.  In every version built from the empty version no entry of the
    children of a reachable node is null; the clone that [remove] takes
    of every node on its way never reads through a null pointer; and
    [search], [insert] and [remove] all return, whatever the key. *)
Theorem children_non_null_total h v (ops : list (op denote)) :
  built h v ops →
  (∀ s a n k c, reaches h (root v) s a → h !! a = Some n →
                children n !! k = Some c → c ≠ None) ∧
  (∀ s a, reaches h (root v) s a → ∃ a' h', copy (Some a) h = Done (a', h')) ∧
  (∀ T key, ∃ r, search T v key h = Done r) ∧
  (∀ T key (x : denote T), ∃ v' h', insert T v key x h = Done (v', h')) ∧
  (∀ key, ∃ v' h', remove v key h = Done (v', h')).
Proof.
  intros Hb. apply built_wf in Hb. split; [|split; [|split; [|split]]].
  - intros s a n k c Hr Ha Hk ->.
    destruct (good_inv h a n) as (_ & _ & Hnn & _);
      [by eapply reaches_good|done|].
    by destruct (Hnn k).
  - intros s a Hr.
    destruct (good_lookup h a) as (n & Ha & _); [by eapply reaches_good|].
    eexists _, _. by apply copy_run.
  - intros T key. by apply search_at_total.
  - intros T key x.
    destruct (insert_spec T v key x h Hb) as (v' & h' & Hrun & _). eauto.
  - intros key.
    destruct (remove_spec v key h Hb) as (v' & h' & Hrun & _). eauto.
Qed.

End Properties.

(** * The program on concrete inputs *)

(** The run of [main]: what its searches print. *)
Example main_scenario :
  query TInt "abc" (run_ops main_inserts) = Done (Some 123%Z) ∧
  query TInt "ab" (run_ops main_inserts) = Done (Some 12%Z) ∧
  query TString "ijk" (run_ops main_inserts) = Done (Some "xyz") ∧
  query TDouble "xyz" (run_ops main_inserts) = Done (Some (888 # 1000)%Q) ∧
  query TString "abc" (run_ops main_inserts) = Done None ∧
  query TString "ijk" (run_ops (main_inserts ++ main_removes)) = Done None ∧
  query TInt "abc" (run_ops (main_inserts ++ main_removes)) = Done (Some 123%Z) ∧
  query TInt "ab" (run_ops (main_inserts ++ main_removes)) = Done None ∧
  query TString "" (run_ops main_ops) = Done (Some "naughty").
Proof. repeat split; vm_compute; reflexivity. Qed.

(** C4.  The version holding only ["ab"] does not hold the key ["a"]:
    [search] at ["a"] is not-found at every type.  Yet [remove] at ["a"]
    finds every edge of the path, rebuilds it, and returns a root at a
    fresh address instead of the root of its input. *)
Theorem remove_absent_prefix_copies_root :
  built heap_ab trie_ab ops_ab ∧
  (∀ T, search T trie_ab "a" heap_ab = Done None) ∧
  root trie_ab = Some 2 ∧
  ∃ h', remove trie_ab "a" heap_ab = Done (MkTrie (Some 3), h') ∧
        (∀ T (key : string),
           search T (MkTrie (Some 3)) key h' = search T trie_ab key heap_ab).
Proof.
  assert (built heap_ab trie_ab ops_ab) as Hb by built_ab.
  assert (∀ T, search T trie_ab "a" heap_ab = Done None) as Habs by done.
  split; [done|]. split; [done|]. split; [done|].
  destruct (remove_absent_noop heap_ab trie_ab ops_ab "a" Hb Habs)
    as (v' & h' & Hrun & Hsame & _).
  assert (v' = MkTrie (Some 3)) as ->.
  { pose proof Hrun as Hrun'. vm_compute in Hrun'. by injection Hrun' as <- _. }
  by exists h'.
Qed.

(** ** The theorems at the example version *)

(** C1 at the version holding ["ab" = 12]: overwriting the integer with
    a string. *)
Lemma search_insert_same_witness :
  built heap_ab trie_ab ops_ab ∧
  ∃ v' h',
    insert TString trie_ab "ab" "twelve" heap_ab = Done (v', h') ∧
    search TString v' "ab" h' = Done (Some "twelve") ∧
    ∀ U, U ≠ TString → search U v' "ab" h' = Done None.
Proof.
  assert (built heap_ab trie_ab ops_ab) as Hb by built_ab.
  split; [exact Hb|].
  exact (search_insert_same heap_ab trie_ab ops_ab TString "ab" "twelve" Hb).
Defined.

(** C2 at the version holding ["ab" = 12]: removing ["ab"]. *)
Lemma search_remove_witness :
  built heap_ab trie_ab ops_ab ∧
  ∃ v' h',
    remove trie_ab "ab" heap_ab = Done (v', h') ∧
    (∀ T, search T v' "ab" h' = Done None) ∧
    (∀ T (k2 : string), k2 ≠ "ab" →
       search T v' k2 h' = search T trie_ab k2 heap_ab).
Proof.
  assert (built heap_ab trie_ab ops_ab) as Hb by built_ab.
  split; [exact Hb|].
  destruct (search_remove heap_ab trie_ab ops_ab "ab" Hb)
    as (v' & h' & Hrun & Hk & Hother & _).
  exact (ex_intro _ v' (ex_intro _ h' (conj Hrun (conj Hk Hother)))).
Defined.

(** C3 at the version holding ["ab" = 12]: the integer is not found as a
    string or a double, and a string stored next to it is found. *)
Lemma search_type_checked_witness :
  built heap_ab trie_ab ops_ab ∧
  search TInt trie_ab "ab" heap_ab = Done (Some 12%Z) ∧
  search TString trie_ab "ab" heap_ab = Done None ∧
  ∃ v1 h1 v2 h2,
    insert TInt trie_ab "abc" 123%Z heap_ab = Done (v1, h1) ∧
    insert TString v1 "ijk" "xyz" h1 = Done (v2, h2) ∧
    search TInt v2 "abc" h2 = Done (Some 123%Z) ∧
    search TString v2 "ijk" h2 = Done (Some "xyz").
Proof.
  assert (built heap_ab trie_ab ops_ab) as Hb by built_ab.
  assert (search TInt trie_ab "ab" heap_ab = Done (Some 12%Z)) as Hs
    by (vm_compute; reflexivity).
  assert (TString ≠ TInt) as Hty by discriminate.
  assert ("abc" ≠ "ijk") as Hkeys by discriminate.
  split; [exact Hb|]. split; [exact Hs|]. split.
  - exact (proj1 (search_type_checked heap_ab trie_ab ops_ab Hb)
             "ab" TInt 12%Z TString Hs Hty).
  - exact (proj2 (search_type_checked heap_ab trie_ab ops_ab Hb)
             TInt TString "abc" "ijk" 123%Z "xyz" Hkeys).
Defined.

(** C5 at the version holding ["ab" = 12]: its three nodes are alive,
    and it is not the empty map. *)
Lemma no_dead_nodes_witness :
  built heap_ab trie_ab ops_ab ∧
  (∀ s a n, reaches heap_ab (root trie_ab) s a → heap_ab !! a = Some n →
            ¬ (children n = ∅ ∧ isEndOfWord n = false)) ∧
  ((∀ T s, search T trie_ab s heap_ab = Done None) ↔ root trie_ab = None).
Proof.
  assert (built heap_ab trie_ab ops_ab) as Hb by built_ab.
  split; [exact Hb|].
  destruct (no_dead_nodes heap_ab trie_ab ops_ab Hb) as (Hdead & Hempty & _).
  exact (conj Hdead Hempty).
Defined.

(** C6 at the version holding ["ab" = 12]: inserting ["abc"] leaves
    ["ab"] as it was. *)
Lemma search_insert_other_witness :
  built heap_ab trie_ab ops_ab ∧
  ∃ v' h',
    insert TInt trie_ab "abc" 123%Z heap_ab = Done (v', h') ∧
    (∀ U (k2 : string), k2 ≠ "abc" →
       search U v' k2 h' = search U trie_ab k2 heap_ab) ∧
    search_loop h' (root v') "abd" = search_loop heap_ab (root trie_ab) "abd".
Proof.
  assert (built heap_ab trie_ab ops_ab) as Hb by built_ab.
  split; [exact Hb|].
  destruct (search_insert_other heap_ab trie_ab ops_ab TInt "abc" 123%Z Hb)
    as (v' & h' & Hrun & Hother & Hshare & _).
  exact (ex_intro _ v' (ex_intro _ h'
           (conj Hrun (conj Hother (Hshare "abd" eq_refl))))).
Defined.

(** C7 at the version holding ["ab" = 12]: after removing ["ab"] from
    it, the version itself still answers as before. *)
Lemma old_version_unchanged_witness :
  built heap_ab trie_ab ops_ab ∧
  ∃ v2 h2,
    remove trie_ab "ab" heap_ab = Done (v2, h2) ∧
    (∀ a n, heap_ab !! a = Some n → h2 !! a = Some n) ∧
    (∀ U (s : string), search U trie_ab s h2 = search U trie_ab s heap_ab) ∧
    search TInt trie_ab "ab" h2 = Done (Some 12%Z).
Proof.
  assert (built heap_ab trie_ab ops_ab) as Hb by built_ab.
  split; [exact Hb|].
  eexists _, _. split; [vm_compute; reflexivity|].
  match goal with
  | |- (∀ a n, _ → ?h2 !! a = _) ∧ _ =>
      assert (remove trie_ab "ab" heap_ab = Done (Trie_default, h2)) as Hrun
        by (vm_compute; reflexivity)
  end.
  destruct (proj2 (old_version_unchanged heap_ab trie_ab ops_ab Hb) _ _ _ Hrun)
    as [Hcells Hsearch].
  split; [exact Hcells|]. split; [exact Hsearch|].
  vm_compute; reflexivity.
Defined.

(** C8 at the version holding ["ab" = 12], whose history has no
    insertion at the empty key. *)
Lemma empty_key_is_a_key_witness :
  built heap_ab trie_ab ops_ab ∧
  Forall (λ o : op vdenote, op_inserts_at "" o = false) ops_ab ∧
  (∃ v' h', insert TString trie_ab "" "naughty" heap_ab = Done (v', h') ∧
            search TString v' "" h' = Done (Some "naughty")) ∧
  (∀ T, search T trie_ab "" heap_ab = Done None).
Proof.
  assert (built heap_ab trie_ab ops_ab) as Hb by built_ab.
  assert (Forall (λ o : op vdenote, op_inserts_at "" o = false) ops_ab) as Hops
    by (repeat constructor).
  split; [exact Hb|]. split; [exact Hops|]. split.
  - exact (proj1 (empty_key_is_a_key heap_ab trie_ab ops_ab Hb) TString "naughty").
  - exact (proj2 (empty_key_is_a_key heap_ab trie_ab ops_ab Hb) Hops).
Defined.

(** C9 at the value node of ["ab"] and at the plain root node. *)
Lemma copy_is_shallow_clone_witness :
  heap_ab !! 0 = Some (TrieValueNode_of (Box TInt 12%Z)) ∧
  constructed (TrieValueNode_of (denote:=vdenote) (Box TInt 12%Z)) ∧
  ∃ a' n' h',
    copy (Some 0) heap_ab = Done (a', h') ∧
    a' ≠ 0 ∧ h' !! 0 = Some (TrieValueNode_of (Box TInt 12%Z)) ∧
    h' !! a' = Some n' ∧
    children n' = ∅ ∧ isEndOfWord n' = true ∧ value n' = Some (Box TInt 12%Z).
Proof.
  assert (heap_ab !! 0 = Some (TrieValueNode_of (Box TInt 12%Z))) as Ha
    by reflexivity.
  split; [exact Ha|]. split; [apply constructed_value|].
  exact (copy_is_shallow_clone heap_ab 0 _ Ha (constructed_value _)).
Defined.

(** C10 at the version holding ["ab" = 12]. *)
Lemma children_non_null_total_witness :
  built heap_ab trie_ab ops_ab ∧
  (∀ s a n k c, reaches heap_ab (root trie_ab) s a → heap_ab !! a = Some n →
                children n !! k = Some c → c ≠ None) ∧
  (∃ r, search TInt trie_ab "abc" heap_ab = Done r) ∧
  (∃ v' h', insert TInt trie_ab "abc" 123%Z heap_ab = Done (v', h')) ∧
  (∃ v' h', remove trie_ab "a" heap_ab = Done (v', h')).
Proof.
  assert (built heap_ab trie_ab ops_ab) as Hb by built_ab.
  split; [exact Hb|].
  destruct (children_non_null_total heap_ab trie_ab ops_ab Hb)
    as (Hnn & _ & Hsearch & Hinsert & Hremove).
  exact (conj Hnn (conj (Hsearch TInt "abc")
           (conj (Hinsert TInt "abc" 123%Z) (Hremove "a")))).
Defined.

(** * Further properties of the operations *)

Section MoreProperties.

Context {tag : Type} `{!EqDecision tag} {denote : tag → Type}.

Implicit Types (h : list (TrieNode denote)) (n : TrieNode denote).
Implicit Types (a b : addr) (p cur : ptr) (s key : string).
Implicit Types (t v : Trie).

(** ** Inverting a run of [insert] and of [remove] *)

Lemma insert_run_inv T t key (x : denote T) h t' h' :
  wf_trie h t → insert T t key x h = Done (t', h') →
  ∃ a, insert_dfs T x key (root t) h = Done (Some a, h') ∧ t' = MkTrie (Some a).
Proof.
  intros Hwf Hrun.
  destruct (insert_dfs_spec T x key (root t) h Hwf) as (a & h1 & Hdfs & _).
  unfold insert in Hrun. rewrite (bind_run _ _ _ _ _ Hdfs) in Hrun.
  injection Hrun as <- <-. eauto.
Qed.

(** The three ways [remove] ends on a non-empty version: an edge of the
    path is missing, the rebuilt root is dead, or the rebuilt root is
    returned. *)
Lemma remove_run_inv t key h t' h' :
  wf_trie h t → remove t key h = Done (t', h') →
  (root t = None ∧ t' = MkTrie None ∧ h' = h) ∨
  (∃ a, root t = Some a ∧ remove_dfs key (Some a) h = Done (None, h') ∧
        t' = MkTrie (Some a)) ∨
  (∃ a b nb, root t = Some a ∧
        remove_dfs key (Some a) h = Done (Some b, h') ∧
        h' !! b = Some nb ∧
        t' = MkTrie (if is_dead nb then None else Some b)).
Proof.
  intros Hwf Hrun. unfold remove in Hrun. destruct t as [[a|]]; simpl in *.
  - right.
    destruct (remove_dfs_spec key a h h (heap_le_refl h)) as (r & h1 & Hdfs & _ & Hpost);
      [by apply Hwf|].
    rewrite (bind_run _ _ _ _ _ Hdfs) in Hrun. destruct r as [b|].
    + right. destruct Hpost as (_ & _ & Hpost).
      destruct (Hpost h1 (agree_outside_refl _ _ _)) as [(nb & Hb & _) _].
      rewrite (bind_run _ _ _ _ _ (deref_run _ _ _ Hb)) in Hrun.
      exists a, b, nb. destruct (is_dead nb); injection Hrun as <- <-; eauto.
    + left. injection Hrun as <- <-. eauto.
  - left. by injection Hrun as <- <-.
Qed.

Lemma search_loop_dead h a n s :
  h !! a = Some n → is_dead n = true → s ≠ "" →
  search_loop h (Some a) s = Done None.
Proof.
  intros Ha Hd Hs. destruct s as [|c s]; [done|].
  apply andb_true_iff in Hd as [Hc _]. apply bool_decide_eq_true in Hc.
  by rewrite (search_loop_cons _ _ _ _ _ Ha), Hc, lookup_empty.
Qed.

Lemma prefix_cons_true c s (k : ascii) key :
  String.prefix (String c s) (String k key) = true →
  c = k ∧ String.prefix s key = true.
Proof. simpl. by destruct (ascii_dec c k) as [->|]. Qed.

Lemma prefix_false_nonempty s key : String.prefix s key = false → s ≠ "".
Proof. intros Hs ->. by destruct key. Qed.

(** ** What [insert] allocates *)

(** The recursion of [insert] allocates one cell for each character of
    the key and one for the terminal node, returns the cell allocated
    last, and puts a new cell at every prefix of the key. *)
Lemma insert_dfs_alloc T (x : denote T) key : ∀ cur h a h',
  wf_ptr h cur →
  insert_dfs T x key cur h = Done (Some a, h') →
  length h' = length h + String.length key + 1 ∧
  a = length h + String.length key ∧
  ∀ s, String.prefix s key = true →
       ∃ b, search_loop h' (Some a) s = Done (Some b) ∧ length h ≤ b.
Proof.
  induction key as [|k key IH]; intros cur h a h' Hwf Hrun.
  - assert (length h' = length h + 1 ∧ a = length h) as [Hlen ->].
    { destruct cur as [a0|].
      - destruct (good_lookup h a0) as (n & Ha & _); [by apply Hwf|].
        rewrite (insert_dfs_nil_run _ _ _ _ _ Ha) in Hrun.
        injection Hrun as <- <-. rewrite length_app. simpl. lia.
      - injection Hrun as <- <-. rewrite length_app. simpl. lia. }
    simpl. split; [lia|]. split; [lia|].
    intros [|c s] Hs; [|done]. by exists (length h).
  - assert (∃ cur' b h1 n0,
              wf_ptr h cur' ∧
              insert_dfs T x key cur' h = Done (Some b, h1) ∧
              good h1 b ∧
              a = length h1 ∧ h' = h1 ++ [n0] ∧
              children n0 !! k = Some (Some b))
      as (cur' & b & h1 & n0 & Hwf' & Hrec & Hb & -> & -> & Hk).
    { destruct cur as [a0|].
      - destruct (good_lookup h a0) as (n & Ha & _); [by apply Hwf|].
        assert (wf_ptr h (default None (children n !! k))) as Hwf'.
        { destruct (children n !! k) as [[b|]|] eqn:Hk; simpl;
            [|apply wf_ptr_None..].
          apply wf_ptr_Some.
          by destruct (good_child h a0 n k (Some b)) as (? & [= <-] & ?);
            [apply Hwf|..]. }
        destruct (insert_dfs_spec T x key _ h Hwf') as (b & h1 & Hrec & Hle & Hb & _).
        rewrite (insert_dfs_cons_run _ _ _ _ _ _ _ _ _ Ha Hrec Hle) in Hrun.
        injection Hrun as <- <-.
        eexists _, b, h1, _. repeat split; [done..|].
        simpl. apply lookup_insert_eq.
      - destruct (insert_dfs_spec T x key None h (wf_ptr_None h))
          as (b & h1 & Hrec & Hle & Hb & _).
        rewrite (insert_dfs_cons_null_run _ _ _ _ _ _ _ Hrec) in Hrun.
        injection Hrun as <- <-.
        eexists None, b, h1, _. repeat split; [apply wf_ptr_None|done..|].
        simpl. apply lookup_insert_eq. }
    destruct (IH cur' h b h1 Hwf' Hrec) as (Hlen & -> & Hpath).
    rewrite length_app. simpl. split; [lia|]. split; [lia|].
    intros [|c s] Hs.
    + exists (length h1). split; [done|lia].
    + apply prefix_cons_true in Hs as [-> Hs].
      rewrite (search_loop_cons _ _ _ _ _ (lookup_fresh _ _)), Hk.
      rewrite (search_loop_mono h1) by auto using heap_le_alloc, wf_ptr_Some.
      by apply Hpath.
Qed.

(** ** What [remove] allocates and what it shares *)

Lemma remove_dfs_more key : ∀ a h0 h r h',
  heap_le h0 h → good h0 a →
  remove_dfs key (Some a) h = Done (r, h') →
  match r with
  | None => length h < length h' ∧ length h' ≤ length h + String.length key
  | Some b =>
      length h' = length h + String.length key + 1 ∧
      ∀ h'', agree_outside (length h0) (length h) h' h'' →
        ∀ s, String.prefix s key = false →
             search_loop h'' (Some b) s = search_loop h0 (Some a) s
  end.
Proof.
  induction key as [|k key IH]; intros a h0 h r h' Hle Hg Hrun.
  - destruct (good_lookup h0 a) as (n & Ha & _); [done|].
    rewrite (remove_dfs_nil_run _ _ _ (Hle _ _ Ha)) in Hrun.
    injection Hrun as <- <-. rewrite length_app. simpl. split; [lia|].
    intros h'' Hag [|c s] Hs; [done|].
    assert (h'' !! length h = Some (TrieNode_of (children n))) as Hnew.
    { apply Hag; [by right|apply lookup_fresh]. }
    assert (heap_le h0 h'') as Hle''.
    { intros a' m Hm. apply Hag; [left; by eapply lookup_lt_Some|].
      by apply heap_le_alloc, Hle. }
    rewrite (search_loop_cons _ _ _ _ _ Hnew), (search_loop_cons _ _ _ _ _ Ha).
    simpl. destruct (children n !! c) as [q|] eqn:Hq; [|done].
    destruct (good_child h0 a n c q) as (b & -> & Hb); auto.
    apply search_loop_mono; auto using wf_ptr_Some.
  - destruct (good_lookup h0 a) as (n & Ha & _); [done|].
    destruct (good_inv h0 a n) as (Hc & Hd & Hnn & Hch); [done..|].
    destruct (children n !! k) as [c|] eqn:Hk; cycle 1.
    { rewrite (remove_dfs_cons_absent_run _ _ _ _ _ (Hle _ _ Ha) Hk) in Hrun.
      injection Hrun as <- <-. rewrite length_app. simpl. lia. }
    destruct (good_child h0 a n k c) as (cb & -> & Hcb); auto.
    set (h1 := h ++ [copy_node n]) in *.
    assert (heap_le h h1) as Hle1 by apply heap_le_alloc.
    assert (length h1 = S (length h)) as Hlen1.
    { unfold h1. rewrite length_app. simpl. lia. }
    destruct (remove_dfs_spec key cb h0 h1) as (r2 & h2 & Hrun2 & Hle2 & Hpost);
      [by eapply heap_le_trans|done|].
    pose proof (IH cb h0 h1 r2 h2 (heap_le_trans _ _ _ Hle Hle1) Hcb Hrun2) as Hmore.
    destruct r2 as [nb|]; cycle 1.
    { rewrite (remove_dfs_cons_none_run _ _ _ _ _ _ _ (Hle _ _ Ha) Hk Hrun2) in Hrun.
      injection Hrun as <- <-. simpl. lia. }
    destruct Hpost as (Hfresh & _ & Hpost). destruct Hmore as [Hlen2 Hshare].
    destruct (Hpost h2 (agree_outside_refl _ _ _)) as [(nn & Hnb & _) _].
    assert (h2 !! length h = Some (copy_node n)) as Hr.
    { apply Hle2. apply lookup_fresh. }
    rewrite (remove_dfs_cons_some_run _ _ _ _ _ _ _ _ _ (Hle _ _ Ha) Hk Hrun2 Hnb Hr)
      in Hrun.
    injection Hrun as <- <-.
    set (n3 := if is_dead nn then drop_child k (copy_node n)
               else put_child k (Some nb) (copy_node n)).
    rewrite length_insert. simpl. split; [lia|].
    assert (length h0 ≤ length h) as Hlen by by apply heap_le_length.
    intros h'' Hag s Hs.
    assert (h'' !! length h = Some n3) as Hnew.
    { apply Hag; [by right|]. apply list_lookup_insert_eq.
      by eapply lookup_lt_Some. }
    assert (agree_outside (length h0) (length h1) h2 h'') as Hag2.
    { intros a' m Hout Hm. apply Hag; [lia|].
      rewrite list_lookup_insert_ne by lia. done. }
    assert (heap_le h0 h'') as Hle''.
    { intros a' m Hm. apply Hag; [left; by eapply lookup_lt_Some|].
      rewrite list_lookup_insert_ne; [by apply Hle2, Hle1, Hle|].
      apply lookup_lt_Some in Hm. lia. }
    assert (h'' !! nb = Some nn) as Hnb''.
    { apply Hag2; [right; lia|done]. }
    destruct s as [|c s]; [done|].
    rewrite (search_loop_cons _ _ _ _ _ Hnew), (search_loop_cons _ _ _ _ _ Ha).
    destruct (prefix_cons_false _ _ _ _ Hs) as [Hne|[-> Hs']].
    + replace (children n3 !! c) with (children n !! c).
      * destruct (children n !! c) as [q|] eqn:Hq; [|done].
        destruct (good_child h0 a n c q) as (b' & -> & Hb'); auto.
        apply search_loop_mono; auto using wf_ptr_Some.
      * unfold n3. destruct (is_dead nn); simpl; rewrite copy_node_children.
        -- by rewrite lookup_delete_ne.
        -- by rewrite lookup_insert_ne.
    + rewrite Hk. specialize (Hshare h'' Hag2 s Hs').
      unfold n3. destruct (is_dead nn) eqn:Hdead; simpl.
      * rewrite lookup_delete_eq. rewrite <- Hshare.
        symmetry. eapply search_loop_dead; eauto using prefix_false_nonempty.
      * by rewrite lookup_insert_eq.
Qed.

(** Everything a run of [remove] on a well-formed version determines. *)
Lemma remove_run_full t key h t' h' :
  wf_trie h t → remove t key h = Done (t', h') →
  (root t = None ∧ t' = MkTrie None ∧ h' = h) ∨
  (∃ a, root t = Some a ∧ t' = MkTrie (Some a) ∧
        search_loop h (Some a) key = Done None ∧
        length h < length h' ∧ length h' ≤ length h + String.length key) ∨
  (∃ a b nb q, root t = Some a ∧
        t' = MkTrie (if is_dead nb then None else Some b) ∧
        search_loop h (Some a) key = Done (Some q) ∧
        h' !! b = Some nb ∧ length h ≤ b ∧
        length h' = length h + String.length key + 1 ∧
        ∀ s, String.prefix s key = false →
             search_loop h' (Some b) s = search_loop h (Some a) s).
Proof.
  intros Hwf Hrun.
  destruct (remove_run_inv t key h t' h' Hwf Hrun)
    as [?|[(a & Ha & Hdfs & ->)|(a & b & nb & Ha & Hdfs & Hb & ->)]];
    [by left|right; left|right; right].
  - assert (good h a) as Hg by by apply Hwf.
    destruct (remove_dfs_spec key a h h (heap_le_refl h) Hg)
      as (r & h1 & Hdfs' & _ & Hpost).
    rewrite Hdfs in Hdfs'. injection Hdfs' as <- <-.
    pose proof (remove_dfs_more key a h h None h' (heap_le_refl h) Hg Hdfs) as Hm.
    exists a. by repeat split; try apply Hm.
  - assert (good h a) as Hg by by apply Hwf.
    destruct (remove_dfs_spec key a h h (heap_le_refl h) Hg)
      as (r & h1 & Hdfs' & _ & Hpost).
    rewrite Hdfs in Hdfs'. injection Hdfs' as <- <-.
    destruct Hpost as (Hfresh & [q Hq] & _).
    destruct (remove_dfs_more key a h h (Some b) h' (heap_le_refl h) Hg Hdfs)
      as [Hlen Hshare].
    exists a, b, nb, q. repeat split; try done.
    apply Hshare, agree_outside_refl.
Qed.

(** X1.  In a version built from the empty version, [insert] at [key]
    allocates exactly one node for every prefix of [key] (the key's length
    plus one), returns as root the node it allocated last, which is never
    null, and puts a freshly allocated node at every prefix of [key]: no
    node of an earlier version lies on the new path. *)
Theorem insert_allocates_path h v (ops : list (op denote)) T key (x : denote T) :
  built h v ops →
  ∃ v' h',
    insert T v key x h = Done (v', h') ∧
    length h' = length h + String.length key + 1 ∧
    root v' = Some (length h + String.length key) ∧
    ∀ s, String.prefix s key = true →
         ∃ b, reaches h' (root v') s b ∧ length h ≤ b.
Proof.
  intros Hb. apply built_wf in Hb.
  destruct (insert_spec T v key x h Hb) as (v' & h' & Hrun & _).
  destruct (insert_run_inv T v key x h v' h' Hb Hrun) as (a & Hdfs & ->).
  destruct (insert_dfs_alloc T x key (root v) h a h' Hb Hdfs) as (Hlen & -> & Hpath).
  exists (MkTrie (Some (length h + String.length key))), h'. by repeat split.
Qed.

(** X2.  In a version built from the empty version, [remove] at [key]
    allocates at most one node per prefix of [key]: none on the empty
    version, at least one clone on any other version (even when the key is
    absent), and exactly the key's length plus one when every edge of the
    key's path exists. *)
Theorem remove_allocation_bound h v (ops : list (op denote)) key :
  built h v ops →
  ∃ v' h',
    remove v key h = Done (v', h') ∧
    length h ≤ length h' ∧
    length h' ≤ length h + String.length key + 1 ∧
    (root v = None → h' = h) ∧
    (root v ≠ None → length h < length h') ∧
    (∀ q, reaches h (root v) key q →
          length h' = length h + String.length key + 1).
Proof.
  intros Hb. apply built_wf in Hb.
  destruct (remove_spec v key h Hb) as (v' & h' & Hrun & _).
  exists v', h'. split; [done|].
  destruct (remove_run_full v key h v' h' Hb Hrun)
    as [(Hr & -> & ->)|[(a & Hr & -> & Habs & Hlt & Hle)
                       |(a & b & nb & q & Hr & -> & Hq & _ & _ & Hlen & _)]].
  - repeat split; try done; try lia.
    intros q Hq. unfold reaches in Hq. by rewrite Hr, search_loop_null in Hq.
  - repeat split; try lia; try congruence.
    all: intros q Hq; unfold reaches in Hq; rewrite Hr in Hq; congruence.
  - repeat split; try lia; congruence.
Qed.

(** X3.  In a version built from the empty version, [remove] returns the
    very root pointer of its input when the walk along [key] finds an edge
    missing; when the walk reaches a node, the returned root is null or a
    node allocated by this call, never the input's root. *)
Theorem remove_root_identity h v (ops : list (op denote)) key :
  built h v ops →
  ∃ v' h',
    remove v key h = Done (v', h') ∧
    (search_loop h (root v) key = Done None → root v' = root v) ∧
    (∀ q, reaches h (root v) key q →
          root v' = None ∨ ∃ b, root v' = Some b ∧ length h ≤ b) ∧
    (∀ q, reaches h (root v) key q → root v' ≠ root v).
Proof.
  intros Hb. apply built_wf in Hb.
  destruct (remove_spec v key h Hb) as (v' & h' & Hrun & _ & _ & _ & Hsame).
  exists v', h'. split; [done|]. split; [done|].
  assert (∀ q, reaches h (root v) key q →
            root v' = None ∨ ∃ b, root v' = Some b ∧ length h ≤ b) as Hfresh.
  { intros q Hq. unfold reaches in Hq.
    destruct (remove_run_full v key h v' h' Hb Hrun)
      as [(Hr & -> & ->)|[(a & Hr & -> & Habs & _)
                         |(a & b & nb & q' & Hr & -> & _ & _ & Hge & _)]].
    - by rewrite Hr, search_loop_null in Hq.
    - rewrite Hr in Hq. congruence.
    - destruct (is_dead nb); simpl; eauto. }
  split; [done|].
  intros q Hq Heq. pose proof Hq as Hq'. unfold reaches in Hq'.
  destruct (root v) as [a|] eqn:Hr; [|by rewrite search_loop_null in Hq'].
  destruct (good_lookup h a) as (n & Ha & _); [by apply Hb|].
  apply lookup_lt_Some in Ha.
  destruct (Hfresh q Hq) as [Hn|(b & Hb' & Hge)]; [congruence|].
  rewrite Heq in Hb'. injection Hb' as <-. lia.
Qed.

(** X4.  In a version built from the empty version, [remove] at [key]
    shares every subtrie off the path of [key]: walking any string that is
    not a prefix of [key] ends, in the returned version, at the very node
    it ended at in the input version (or at no node in both). *)
Theorem remove_shares_off_path h v (ops : list (op denote)) key :
  built h v ops →
  ∃ v' h',
    remove v key h = Done (v', h') ∧
    ∀ s, String.prefix s key = false →
         search_loop h' (root v') s = search_loop h (root v) s.
Proof.
  intros Hb. apply built_wf in Hb.
  destruct (remove_spec v key h Hb) as (v' & h' & Hrun & Hle & _).
  exists v', h'. split; [done|]. intros s Hs.
  destruct (remove_run_full v key h v' h' Hb Hrun)
    as [(Hr & -> & ->)|[(a & Hr & -> & _)
                       |(a & b & nb & q & Hr & -> & _ & Hnb & _ & _ & Hshare)]].
  - by rewrite Hr.
  - rewrite Hr. simpl. apply search_loop_mono; [done|]. by rewrite <- Hr.
  - rewrite Hr. specialize (Hshare s Hs). destruct (is_dead nb) eqn:Hdead; simpl.
    + rewrite search_loop_null. rewrite <- Hshare. symmetry.
      eapply search_loop_dead; eauto using prefix_false_nonempty.
    + done.
Qed.

(** X5.  In a version built from the empty version every reachable node
    is one the constructors build: it has its end-of-word flag set exactly
    when it is a [TrieValueNode] carrying a value. *)
Theorem reachable_nodes_constructed h v (ops : list (op denote)) :
  built h v ops →
  ∀ s a n, reaches h (root v) s a → h !! a = Some n →
           constructed n ∧ (isEndOfWord n = true ↔ is_Some (value n)).
Proof.
  intros Hb s a n Hr Ha.
  destruct (good_inv h a n) as (Hc & _);
    [by eapply reaches_good; [eapply built_wf|]|done|].
  split; [by apply class_inv_constructed|].
  unfold class_inv in Hc. rewrite Hc.
  destruct (value n); split; first [done | by eexists | by intros [? ?]].
Qed.

(** X6.  Versions are independent: an [insert] or a [remove] on one live
    version [w] changes the answer of no search against any other live
    version [v], although the two may share nodes. *)
Theorem other_versions_unaffected h v w (ops ops' : list (op denote)) (o : op denote) :
  built h v ops → built h w ops' →
  ∃ w' h',
    apply_op o w h = Done (w', h') ∧
    (∀ a n, h !! a = Some n → h' !! a = Some n) ∧
    ∀ T s, search T v s h' = search T v s h.
Proof.
  intros Hv Hw. apply built_wf in Hv, Hw.
  destruct (apply_op_spec o w h Hw) as (w' & h' & Hrun & Hle & _).
  exists w', h'. split; [done|]. split; [done|].
  intros T s. by apply search_mono.
Qed.

(** ** The trie as a finite map *)

Lemma abstract_map_snoc (ops : list (op denote)) o :
  abstract_map (ops ++ [o]) = abstract_step (abstract_map ops) o.
Proof. unfold abstract_map. by rewrite fold_left_app. Qed.

Lemma wf_not_found_null h v :
  wf_trie h v → (∀ T s, search T v s h = Done None) → root v = None.
Proof.
  intros Hwf Hall. destruct v as [[a|]]; [|done].
  destruct (good_has_key h a) as (s & U & x & Hs); [by apply Hwf|].
  specialize (Hall U s). unfold search in Hall. simpl in Hall. congruence.
Qed.

Lemma abstract_map_lookup_inserted (ops : list (op denote)) s T (x : denote T) :
  abstract_map ops !! s = Some (Box T x) → OpInsert T s x ∈ ops.
Proof.
  induction ops as [|o ops IH] using rev_ind; [done|].
  rewrite abstract_map_snoc, elem_of_app, list_elem_of_singleton.
  destruct o as [U k y|k]; simpl.
  - destruct (decide (k = s)) as [->|Hne].
    + rewrite lookup_insert_eq. intros Hbx. apply (inj Some) in Hbx.
      right. symmetry.
      exact (f_equal (λ bx : boxed denote,
                        OpInsert (box_type bx) s (box_value bx)) Hbx).
    + rewrite lookup_insert_ne by done. auto.
  - destruct (decide (k = s)) as [->|Hne].
    + by rewrite lookup_delete_eq.
    + rewrite lookup_delete_ne by done. auto.
Qed.

(** X7.  A version built from the empty version by the operations [ops]
    answers every search as the finite map obtained by replaying [ops]
    (insert as update, remove as deletion): [search<T>] at a key finds the
    value the map holds there when its type is [T], and is not-found
    otherwise. *)
Theorem trie_refines_map h v (ops : list (op denote)) :
  built h v ops →
  ∀ T s, search T v s h = Done (abstract_map ops !! s ≫= unbox T).
Proof.
  induction 1 as [|h t ops o t' h' Hb IH Hrun
                  |h t ops t0 ops0 o t' h' Hb IH Hb0 IH0 Hrun]; intros T s.
  - unfold abstract_map. simpl. rewrite lookup_empty. apply search_at_null.
  - rewrite abstract_map_snoc. apply built_wf in Hb.
    destruct o as [U k x|k]; simpl in *.
    + destruct (insert_spec U t k x h Hb) as (t'' & h'' & Hrun' & _ & _ & Hs & _).
      rewrite Hrun in Hrun'. injection Hrun' as <- <-. rewrite Hs.
      destruct (decide (s = k)) as [->|Hne].
      * by rewrite lookup_insert_eq.
      * by rewrite lookup_insert_ne, IH.
    + destruct (remove_spec t k h Hb) as (t'' & h'' & Hrun' & _ & _ & Hs & _).
      rewrite Hrun in Hrun'. injection Hrun' as <- <-. rewrite Hs.
      destruct (decide (s = k)) as [->|Hne].
      * by rewrite lookup_delete_eq.
      * by rewrite lookup_delete_ne, IH.
  - destruct (apply_op_heap_le o t0 h t' h') as [Hle _]; eauto using built_wf.
    rewrite (search_mono T t s h h'); eauto using built_wf.
Qed.

(** X8.  Pruning is complete: a version built from the empty version has
    a null root exactly when replaying its history leaves no key stored. *)
Theorem null_root_iff_empty_map h v (ops : list (op denote)) :
  built h v ops → (root v = None ↔ abstract_map ops = ∅).
Proof.
  intros Hb. pose proof (trie_refines_map h v ops Hb) as Href. split.
  - intros Hroot. apply map_empty. intros s.
    destruct (abstract_map ops !! s) as [[T x]|] eqn:Hs; [|done].
    specialize (Href T s). rewrite Hs in Href. simpl in Href.
    rewrite unbox_same in Href. unfold search in Href.
    by rewrite Hroot, search_at_null in Href.
  - intros Hemp. apply (wf_not_found_null h); [by eapply built_wf|].
    intros T s. by rewrite Href, Hemp, lookup_empty.
Qed.

(** X9.  [search] never invents a value: whatever [search<T>] returns at
    a key of a version built from the empty version was inserted in that
    version's history at that key and with that type. *)
Theorem search_finds_inserted h v (ops : list (op denote)) T s (x : denote T) :
  built h v ops →
  search T v s h = Done (Some x) →
  OpInsert T s x ∈ ops.
Proof.
  intros Hb Hs. rewrite (trie_refines_map h v ops Hb) in Hs.
  injection Hs as Hs.
  destruct (abstract_map ops !! s) as [bx|] eqn:Hm; [|done]. simpl in Hs.
  apply unbox_Some in Hs as ->. by apply abstract_map_lookup_inserted.
Qed.

(** ** How the operations compose *)

(** X10.  The last write wins: inserting [x] and then [y] at the same
    key gives a version that answers every search as the version obtained
    by inserting [y] alone, whatever the types of [x] and [y]. *)
Theorem insert_overwrites h v (ops : list (op denote)) T1 T2 key
    (x : denote T1) (y : denote T2) :
  built h v ops →
  ∃ v1 h1 v2 h2 v3 h3,
    insert T1 v key x h = Done (v1, h1) ∧
    insert T2 v1 key y h1 = Done (v2, h2) ∧
    insert T2 v key y h = Done (v3, h3) ∧
    ∀ U s, search U v2 s h2 = search U v3 s h3.
Proof.
  intros Hb. apply built_wf in Hb.
  destruct (insert_spec T1 v key x h Hb) as (v1 & h1 & Hr1 & _ & Hwf1 & Hs1 & _).
  destruct (insert_spec T2 v1 key y h1 Hwf1) as (v2 & h2 & Hr2 & _ & _ & Hs2 & _).
  destruct (insert_spec T2 v key y h Hb) as (v3 & h3 & Hr3 & _ & _ & Hs3 & _).
  exists v1, h1, v2, h2, v3, h3. repeat split; try done.
  intros U s. rewrite Hs2, Hs3, Hs1. by destruct (decide (s = key)).
Qed.

(** X11.  Inserts at two different keys commute: both orders give
    versions that answer every search alike. *)
Theorem inserts_commute h v (ops : list (op denote)) T1 T2 (key1 key2 : string)
    (x : denote T1) (y : denote T2) :
  built h v ops → key1 ≠ key2 →
  ∃ v1 h1 v2 h2 w1 g1 w2 g2,
    insert T1 v key1 x h = Done (v1, h1) ∧
    insert T2 v1 key2 y h1 = Done (v2, h2) ∧
    insert T2 v key2 y h = Done (w1, g1) ∧
    insert T1 w1 key1 x g1 = Done (w2, g2) ∧
    ∀ U s, search U v2 s h2 = search U w2 s g2.
Proof.
  intros Hb Hne. apply built_wf in Hb.
  destruct (insert_spec T1 v key1 x h Hb) as (v1 & h1 & Hr1 & _ & Hwf1 & Hs1 & _).
  destruct (insert_spec T2 v1 key2 y h1 Hwf1) as (v2 & h2 & Hr2 & _ & _ & Hs2 & _).
  destruct (insert_spec T2 v key2 y h Hb) as (w1 & g1 & Hq1 & _ & Hwg1 & Ht1 & _).
  destruct (insert_spec T1 w1 key1 x g1 Hwg1) as (w2 & g2 & Hq2 & _ & _ & Ht2 & _).
  exists v1, h1, v2, h2, w1, g1, w2, g2. repeat split; try done.
  intros U s. rewrite Hs2, Hs1, Ht2, Ht1.
  destruct (decide (s = key2)) as [Heq2|]; destruct (decide (s = key1)) as [Heq1|];
    first [done | congruence].
Qed.

(** X12.  Insert then remove is a round trip: if a key is absent from a
    version, inserting at that key and removing it again gives a version
    that answers every search as the original; from the empty version the
    round trip ends at the null root again. *)
Theorem insert_remove_round_trip h v (ops : list (op denote)) T key (x : denote T) :
  built h v ops →
  (∀ U, search U v key h = Done None) →
  ∃ v1 h1 v2 h2,
    insert T v key x h = Done (v1, h1) ∧
    remove v1 key h1 = Done (v2, h2) ∧
    (∀ U s, search U v2 s h2 = search U v s h) ∧
    (root v = None → root v2 = None).
Proof.
  intros Hb Habs. apply built_wf in Hb.
  destruct (insert_spec T v key x h Hb) as (v1 & h1 & Hr1 & _ & Hwf1 & Hs1 & _).
  destruct (remove_spec v1 key h1 Hwf1) as (v2 & h2 & Hr2 & _ & Hwf2 & Hs2 & _).
  exists v1, h1, v2, h2. split; [done|]. split; [done|].
  assert (∀ U s, search U v2 s h2 = search U v s h) as Hsame.
  { intros U s. rewrite Hs2. destruct (decide (s = key)) as [->|Hne].
    - by rewrite Habs.
    - by rewrite Hs1, decide_False. }
  split; [done|]. intros Hroot. apply (wf_not_found_null h2); [done|].
  intros U s. rewrite Hsame. unfold search. rewrite Hroot. apply search_at_null.
Qed.

(** X13.  Removing a key twice is removing it once: the second [remove]
    changes no answer. *)
Theorem remove_idempotent h v (ops : list (op denote)) key :
  built h v ops →
  ∃ v1 h1 v2 h2,
    remove v key h = Done (v1, h1) ∧
    remove v1 key h1 = Done (v2, h2) ∧
    ∀ U s, search U v2 s h2 = search U v1 s h1.
Proof.
  intros Hb. apply built_wf in Hb.
  destruct (remove_spec v key h Hb) as (v1 & h1 & Hr1 & _ & Hwf1 & Hs1 & _).
  destruct (remove_spec v1 key h1 Hwf1) as (v2 & h2 & Hr2 & _ & _ & Hs2 & _).
  exists v1, h1, v2, h2. repeat split; try done.
  intros U s. rewrite Hs2, Hs1. by destruct (decide (s = key)).
Qed.

(** X14.  An [insert] and a [remove] at two different keys commute: both
    orders give versions that answer every search alike. *)
Theorem insert_remove_commute h v (ops : list (op denote)) T (key1 key2 : string)
    (x : denote T) :
  built h v ops → key1 ≠ key2 →
  ∃ v1 h1 v2 h2 w1 g1 w2 g2,
    insert T v key1 x h = Done (v1, h1) ∧
    remove v1 key2 h1 = Done (v2, h2) ∧
    remove v key2 h = Done (w1, g1) ∧
    insert T w1 key1 x g1 = Done (w2, g2) ∧
    ∀ U s, search U v2 s h2 = search U w2 s g2.
Proof.
  intros Hb Hne. apply built_wf in Hb.
  destruct (insert_spec T v key1 x h Hb) as (v1 & h1 & Hr1 & _ & Hwf1 & Hs1 & _).
  destruct (remove_spec v1 key2 h1 Hwf1) as (v2 & h2 & Hr2 & _ & _ & Hs2 & _).
  destruct (remove_spec v key2 h Hb) as (w1 & g1 & Hq1 & _ & Hwg1 & Ht1 & _).
  destruct (insert_spec T w1 key1 x g1 Hwg1) as (w2 & g2 & Hq2 & _ & _ & Ht2 & _).
  exists v1, h1, v2, h2, w1, g1, w2, g2. repeat split; try done.
  intros U s. rewrite Hs2, Hs1, Ht2, Ht1.
  destruct (decide (s = key2)) as [Heq2|]; destruct (decide (s = key1)) as [Heq1|];
    first [done | congruence].
Qed.

(** ** The memory a driver uses *)

Lemma apply_op_alloc (o : op denote) t h t' h' :
  wf_trie h t → apply_op o t h = Done (t', h') →
  length h' ≤ length h + path_nodes o.
Proof.
  intros Hwf Hrun. unfold path_nodes. destruct o as [T key x|key]; simpl in *.
  - destruct (insert_run_inv T t key x h t' h' Hwf Hrun) as (a & Hdfs & _).
    destruct (insert_dfs_alloc T x key (root t) h a h' Hwf Hdfs) as (Hlen & _).
    lia.
  - destruct (remove_run_full t key h t' h' Hwf Hrun)
      as [(_ & _ & ->)|[(a & _ & _ & _ & _ & Hle)
                       |(a & b & nb & q & _ & _ & _ & _ & _ & Hlen & _)]]; lia.
Qed.

(** X15.  A driver that applies a sequence of operations, each to the
    version the previous one returned, starting from the empty version,
    runs to completion and allocates at most one node per prefix of each
    operation's key: the heap never holds more than the sum, over the
    operations, of the key length plus one. *)
Theorem run_ops_allocation_bound (ops : list (op denote)) :
  ∃ t h, run_ops ops = Done (t, h) ∧
         length h ≤ sum_list_with path_nodes ops.
Proof.
  induction ops as [|o ops IH] using rev_ind.
  - exists Trie_default, []. split; [done|]. simpl. lia.
  - destruct IH as (t & h & Hrun & Hlen).
    destruct (run_ops_built ops) as (t0 & h0 & Hrun0 & Hb).
    rewrite Hrun in Hrun0. injection Hrun0 as <- <-. apply built_wf in Hb.
    destruct (apply_op_spec o t h Hb) as (t' & h' & Ho & _).
    exists t', h'. split.
    + unfold run_ops in *. by rewrite fold_left_app, Hrun.
    + pose proof (apply_op_alloc o t h t' h' Hb Ho).
      rewrite sum_list_with_app. simpl. lia.
Qed.

End MoreProperties.

(** ** The further properties at the example version *)

(** X1 at the version holding ["ab" = 12]. *)
Lemma insert_allocates_path_witness :
  built heap_ab trie_ab ops_ab ∧
  ∃ v' h',
    insert TInt trie_ab "abc" 123%Z heap_ab = Done (v', h') ∧
    length h' = 7 ∧ root v' = Some 6 ∧
    ∀ s, String.prefix s "abc" = true →
         ∃ b, reaches h' (root v') s b ∧ 3 ≤ b.
Proof.
  assert (built heap_ab trie_ab ops_ab) as Hb by built_ab.
  split; [exact Hb|].
  exact (insert_allocates_path heap_ab trie_ab ops_ab TInt "abc" 123%Z Hb).
Defined.

(** X2 at the version holding ["ab" = 12]. *)
Lemma remove_allocation_bound_witness :
  built heap_ab trie_ab ops_ab ∧
  ∃ v' h',
    remove trie_ab "ax" heap_ab = Done (v', h') ∧
    3 ≤ length h' ∧ length h' ≤ 6 ∧ 3 < length h'.
Proof.
  assert (built heap_ab trie_ab ops_ab) as Hb by built_ab.
  split; [exact Hb|].
  destruct (remove_allocation_bound heap_ab trie_ab ops_ab "ax" Hb)
    as (v' & h' & Hrun & Hlo & Hhi & _ & Hgrow & _).
  assert (root trie_ab ≠ None) as Hroot by discriminate.
  exact (ex_intro _ v' (ex_intro _ h'
           (conj Hrun (conj Hlo (conj Hhi (Hgrow Hroot)))))).
Defined.

(** X3 at the version holding ["ab" = 12]. *)
Lemma remove_root_identity_witness :
  built heap_ab trie_ab ops_ab ∧
  search_loop heap_ab (root trie_ab) "ax" = Done None ∧
  reaches heap_ab (root trie_ab) "a" 1 ∧
  (∃ v' h', remove trie_ab "ax" heap_ab = Done (v', h') ∧
            root v' = root trie_ab) ∧
  (∃ v' h', remove trie_ab "a" heap_ab = Done (v', h') ∧
            root v' ≠ root trie_ab).
Proof.
  assert (built heap_ab trie_ab ops_ab) as Hb by built_ab.
  assert (search_loop heap_ab (root trie_ab) "ax" = Done None) as Habs
    by (vm_compute; reflexivity).
  assert (reaches heap_ab (root trie_ab) "a" 1) as Hreach
    by (vm_compute; reflexivity).
  split; [exact Hb|]. split; [exact Habs|]. split; [exact Hreach|]. split.
  - destruct (remove_root_identity heap_ab trie_ab ops_ab "ax" Hb)
      as (v' & h' & Hrun & Hsame & _).
    exact (ex_intro _ v' (ex_intro _ h' (conj Hrun (Hsame Habs)))).
  - destruct (remove_root_identity heap_ab trie_ab ops_ab "a" Hb)
      as (v' & h' & Hrun & _ & _ & Hfresh).
    exact (ex_intro _ v' (ex_intro _ h' (conj Hrun (Hfresh 1 Hreach)))).
Defined.

(** X4 at the version holding ["ab" = 12]. *)
Lemma remove_shares_off_path_witness :
  built heap_ab trie_ab ops_ab ∧
  ∃ v' h',
    remove trie_ab "a" heap_ab = Done (v', h') ∧
    search_loop h' (root v') "ab" = search_loop heap_ab (root trie_ab) "ab".
Proof.
  assert (built heap_ab trie_ab ops_ab) as Hb by built_ab.
  split; [exact Hb|].
  destruct (remove_shares_off_path heap_ab trie_ab ops_ab "a" Hb)
    as (v' & h' & Hrun & Hshare).
  exact (ex_intro _ v' (ex_intro _ h' (conj Hrun (Hshare "ab" eq_refl)))).
Defined.

(** X5 at the version holding ["ab" = 12]. *)
Lemma reachable_nodes_constructed_witness :
  built heap_ab trie_ab ops_ab ∧
  reaches heap_ab (root trie_ab) "ab" 0 ∧
  heap_ab !! 0 = Some (TrieValueNode_of (Box TInt 12%Z)) ∧
  constructed (TrieValueNode_of (denote:=vdenote) (Box TInt 12%Z)).
Proof.
  assert (built heap_ab trie_ab ops_ab) as Hb by built_ab.
  assert (reaches heap_ab (root trie_ab) "ab" 0) as Hreach
    by (vm_compute; reflexivity).
  assert (heap_ab !! 0 = Some (TrieValueNode_of (Box TInt 12%Z))) as Ha
    by reflexivity.
  split; [exact Hb|]. split; [exact Hreach|]. split; [exact Ha|].
  exact (proj1 (reachable_nodes_constructed heap_ab trie_ab ops_ab Hb
                  "ab" 0 _ Hreach Ha)).
Defined.

(** X6 at the version holding ["ab" = 12]. *)
Lemma other_versions_unaffected_witness :
  built heap_ab trie_ab ops_ab ∧
  built heap_ab Trie_default [] ∧
  ∃ w' h',
    insert TString Trie_default "ab" "other" heap_ab = Done (w', h') ∧
    (∀ a n, heap_ab !! a = Some n → h' !! a = Some n) ∧
    ∀ T s, search T trie_ab s h' = search T trie_ab s heap_ab.
Proof.
  assert (built heap_ab trie_ab ops_ab) as Hb by built_ab.
  assert (built heap_ab Trie_default []) as He by built_empty_ab.
  split; [exact Hb|]. split; [exact He|].
  exact (other_versions_unaffected heap_ab trie_ab Trie_default ops_ab []
           (OpInsert TString "ab" "other") Hb He).
Defined.

(** X7 at the version holding ["ab" = 12]. *)
Lemma trie_refines_map_witness :
  built heap_ab trie_ab ops_ab ∧
  ∀ T s, search T trie_ab s heap_ab = Done (abstract_map ops_ab !! s ≫= unbox T).
Proof.
  assert (built heap_ab trie_ab ops_ab) as Hb by built_ab.
  split; [exact Hb|].
  exact (trie_refines_map heap_ab trie_ab ops_ab Hb).
Defined.

(** X8 at the version holding ["ab" = 12]. *)
Lemma null_root_iff_empty_map_witness :
  built heap_ab trie_ab ops_ab ∧
  (root trie_ab = None ↔ abstract_map ops_ab = ∅).
Proof.
  assert (built heap_ab trie_ab ops_ab) as Hb by built_ab.
  split; [exact Hb|].
  exact (null_root_iff_empty_map heap_ab trie_ab ops_ab Hb).
Defined.

(** X9 at the version holding ["ab" = 12]. *)
Lemma search_finds_inserted_witness :
  built heap_ab trie_ab ops_ab ∧
  search TInt trie_ab "ab" heap_ab = Done (Some 12%Z) ∧
  OpInsert TInt "ab" 12%Z ∈ ops_ab.
Proof.
  assert (built heap_ab trie_ab ops_ab) as Hb by built_ab.
  assert (search TInt trie_ab "ab" heap_ab = Done (Some 12%Z)) as Hs
    by (vm_compute; reflexivity).
  split; [exact Hb|]. split; [exact Hs|].
  exact (search_finds_inserted heap_ab trie_ab ops_ab TInt "ab" 12%Z Hb Hs).
Defined.

(** X10 at the version holding ["ab" = 12]. *)
Lemma insert_overwrites_witness :
  built heap_ab trie_ab ops_ab ∧
  ∃ v1 h1 v2 h2 v3 h3,
    insert TInt trie_ab "ab" 7%Z heap_ab = Done (v1, h1) ∧
    insert TString v1 "ab" "seven" h1 = Done (v2, h2) ∧
    insert TString trie_ab "ab" "seven" heap_ab = Done (v3, h3) ∧
    ∀ U s, search U v2 s h2 = search U v3 s h3.
Proof.
  assert (built heap_ab trie_ab ops_ab) as Hb by built_ab.
  split; [exact Hb|].
  exact (insert_overwrites heap_ab trie_ab ops_ab TInt TString "ab"
           7%Z "seven" Hb).
Defined.

(** X11 at the version holding ["ab" = 12]. *)
Lemma inserts_commute_witness :
  built heap_ab trie_ab ops_ab ∧ "abc" ≠ "x" ∧
  ∃ v1 h1 v2 h2 w1 g1 w2 g2,
    insert TInt trie_ab "abc" 123%Z heap_ab = Done (v1, h1) ∧
    insert TString v1 "x" "y" h1 = Done (v2, h2) ∧
    insert TString trie_ab "x" "y" heap_ab = Done (w1, g1) ∧
    insert TInt w1 "abc" 123%Z g1 = Done (w2, g2) ∧
    ∀ U s, search U v2 s h2 = search U w2 s g2.
Proof.
  assert (built heap_ab trie_ab ops_ab) as Hb by built_ab.
  assert ("abc" ≠ "x") as Hne by discriminate.
  split; [exact Hb|]. split; [exact Hne|].
  exact (inserts_commute heap_ab trie_ab ops_ab TInt TString "abc" "x"
           123%Z "y" Hb Hne).
Defined.

(** X12 at the version holding ["ab" = 12]. *)
Lemma insert_remove_round_trip_witness :
  built heap_ab trie_ab ops_ab ∧
  (∀ U, search U trie_ab "abc" heap_ab = Done None) ∧
  ∃ v1 h1 v2 h2,
    insert TInt trie_ab "abc" 123%Z heap_ab = Done (v1, h1) ∧
    remove v1 "abc" h1 = Done (v2, h2) ∧
    ∀ U s, search U v2 s h2 = search U trie_ab s heap_ab.
Proof.
  assert (built heap_ab trie_ab ops_ab) as Hb by built_ab.
  assert (∀ U, search U trie_ab "abc" heap_ab = Done None) as Habs
    by (intros U; vm_compute; reflexivity).
  split; [exact Hb|]. split; [exact Habs|].
  destruct (insert_remove_round_trip heap_ab trie_ab ops_ab TInt "abc" 123%Z
              Hb Habs) as (v1 & h1 & v2 & h2 & Hr1 & Hr2 & Hsame & _).
  exact (ex_intro _ v1 (ex_intro _ h1 (ex_intro _ v2 (ex_intro _ h2
           (conj Hr1 (conj Hr2 Hsame)))))).
Defined.

(** X13 at the version holding ["ab" = 12]. *)
Lemma remove_idempotent_witness :
  built heap_ab trie_ab ops_ab ∧
  ∃ v1 h1 v2 h2,
    remove trie_ab "ab" heap_ab = Done (v1, h1) ∧
    remove v1 "ab" h1 = Done (v2, h2) ∧
    ∀ U s, search U v2 s h2 = search U v1 s h1.
Proof.
  assert (built heap_ab trie_ab ops_ab) as Hb by built_ab.
  split; [exact Hb|].
  exact (remove_idempotent heap_ab trie_ab ops_ab "ab" Hb).
Defined.

(** X14 at the version holding ["ab" = 12]. *)
Lemma insert_remove_commute_witness :
  built heap_ab trie_ab ops_ab ∧ "abc" ≠ "ab" ∧
  ∃ v1 h1 v2 h2 w1 g1 w2 g2,
    insert TInt trie_ab "abc" 123%Z heap_ab = Done (v1, h1) ∧
    remove v1 "ab" h1 = Done (v2, h2) ∧
    remove trie_ab "ab" heap_ab = Done (w1, g1) ∧
    insert TInt w1 "abc" 123%Z g1 = Done (w2, g2) ∧
    ∀ U s, search U v2 s h2 = search U w2 s g2.
Proof.
  assert (built heap_ab trie_ab ops_ab) as Hb by built_ab.
  assert ("abc" ≠ "ab") as Hne by discriminate.
  split; [exact Hb|]. split; [exact Hne|].
  exact (insert_remove_commute heap_ab trie_ab ops_ab TInt "abc" "ab"
           123%Z Hb Hne).
Defined.
